(** * video-transcript: caption segmentation, frame trim, write retry,
    worker scheduler and SRT export

  A shallow embedding of [main.py] and [srtgen.py].

  - [Text]       Python [str] operations used by the code
                 ([strip], [endswith], [split], [join]).
  - [Segmenter]  the loop of [VideoCreation.add_captions_to_video].
  - [Trim]       Python's [round].
  - [Binary64]   arithmetic on Python's [float].
  - [EndTime]    the [end_time] computation of [start_process].
  - [Retry]      the [for pos in range(5)] write loop of [start_process].
  - [Scheduler]  the [__main__] loop together with its worker processes.
  - [Srt]        [SRTGenerator.format_srt] and [format_timestamp].

  Times handled by the segmentation loop are only copied, never computed
  with, so that loop is stated over an arbitrary type of time stamps.
  [end_time] and the size [crop] asks of [resize] are computed on floats:
  a float is the rational it denotes and every operation rounds to the
  nearest float.  The time stamps of [Srt] and the other sizes and times
  are exact rationals. *)

From Stdlib Require Import Ascii String ZArith QArith Qround Qabs Qpower Lia Lqa.
From stdpp Require Import base gmap sets list strings.

(** ** Python string operations *)

Module Text.

Definition str := list ascii.

Definition lit (s : string) : str := list_ascii_of_string s.

(** [str.isspace] on one character, for code points below 256:
    TAB..CR, FS..US, SPACE, NEL and NBSP. *)
Definition isspace (c : ascii) : bool :=
  let n := N_of_ascii c in
  ((9 <=? n) && (n <=? 13) || (28 <=? n) && (n <=? 32)
   || (n =? 133) || (n =? 160))%N.

Fixpoint lstrip (s : str) : str :=
  match s with
  | [] => []
  | c :: s' => if isspace c then lstrip s' else s
  end.

Definition rstrip (s : str) : str := rev (lstrip (rev s)).

(** [s.strip()] *)
Definition strip (s : str) : str := rstrip (lstrip s).

Fixpoint startswith (s pre : str) : bool :=
  match pre, s with
  | [], _ => true
  | _ :: _, [] => false
  | p :: pre', c :: s' => if Ascii.eqb p c then startswith s' pre' else false
  end.

(** [s.endswith(suf)] *)
Definition endswith (s suf : str) : bool := startswith (rev s) (rev suf).

(** [s.endswith((a, b, ...))] *)
Definition endswith_any (s : str) (sufs : list str) : bool :=
  existsb (endswith s) sufs.

(** [sep.join(parts)] with [sep = " "] *)
Fixpoint join_space (parts : list str) : str :=
  match parts with
  | [] => []
  | [p] => p
  | p :: rest => p ++ " "%char :: join_space rest
  end.

(** [s.split()]: the maximal runs of non-space characters.  [cur] is the
    run being read, most recent character first. *)
Fixpoint split_from (cur : str) (s : str) : list str :=
  match s with
  | [] => match cur with [] => [] | _ => [rev cur] end
  | c :: s' =>
      if isspace c
      then match cur with
           | [] => split_from [] s'
           | _ => rev cur :: split_from [] s'
           end
      else split_from (c :: cur) s'
  end.

Definition split (s : str) : list str := split_from [] s.

(** [" ".join(s.split())] *)
Definition normalize (s : str) : str := join_space (split s).

End Text.

(** ** Caption segmentation: [VideoCreation.add_captions_to_video] *)

Module Segmenter.
Import Text.

Section Segmentation.

(** The type of time stamps, and the [0] that [start_time] starts from. *)
Context {time : Type} (t0 : time).

(** One entry of [timestamps]:
    [{'timestamp': (start, end), 'text': word}]. *)
Record WordTimestamp := mkWord {
  w_start : time;
  w_end : time;
  w_text : str
}.

(** What the loop hands to [clip.subclip(start, end)] and to
    [add_text_to_video(_, text)]. *)
Record CaptionSegment := mkSeg {
  seg_start : time;
  seg_end : time;
  seg_text : str
}.

Definition max_caption_words : Z := 8.

Definition terminal_punctuation : list str := [lit "."; lit "!"; lit "?"].

(** The loop variables. *)
Record loop_state := mkLoop {
  clips : list CaptionSegment;
  start_time : time;
  caption_text : str;
  word_count : Z
}.

Definition loop_init : loop_state :=
  {| clips := []; start_time := t0; caption_text := []; word_count := 0 |}.

(** The test of line 284. *)
Definition closes (count : Z) (word : str) : bool :=
  (max_caption_words <=? count)%Z || endswith_any word terminal_punctuation.

(** One iteration of [for pos, timestamp in enumerate(timestamps)]. *)
Definition loop_body (st : loop_state) (timestamp : WordTimestamp) : loop_state :=
  let end_ := w_end timestamp in
  let word := w_text timestamp in
  let caption_text' := caption_text st ++ " "%char :: word in
  let word_count' := (word_count st + 1)%Z in
  if closes word_count' word
  then {| clips := clips st ++
                   [ {| seg_start := start_time st; seg_end := end_;
                        seg_text := strip caption_text' |} ];
          start_time := end_;
          caption_text := [];
          word_count := 0 |}
  else {| clips := clips st;
          start_time := start_time st;
          caption_text := caption_text';
          word_count := word_count' |}.

(** [if caption_text:] and the append of the remaining text. *)
Definition flush (st : loop_state) (duration : time) : list CaptionSegment :=
  match caption_text st with
  | [] => clips st
  | _ :: _ => clips st ++
              [ {| seg_start := start_time st; seg_end := duration;
                   seg_text := strip (caption_text st) |} ]
  end.

(** The segments [add_captions_to_video] concatenates, in order.  With no
    time stamps the function returns the clip as it is: no segment. *)
Definition add_captions_to_video
    (timestamps : list WordTimestamp) (duration : time) : list CaptionSegment :=
  match timestamps with
  | [] => []
  | _ => flush (fold_left loop_body timestamps loop_init) duration
  end.

(** *** The same loop, remembering the words of each caption

    [cur_words] is the list of words appended to [caption_text] since the
    last reset; every emitted segment is paired with its words. *)

Record traced_state := mkTraced {
  t_clips : list (CaptionSegment * list WordTimestamp);
  t_start_time : time;
  t_caption_text : str;
  t_word_count : Z;
  cur_words : list WordTimestamp
}.

Definition traced_init : traced_state :=
  {| t_clips := []; t_start_time := t0; t_caption_text := [];
     t_word_count := 0; cur_words := [] |}.

Definition traced_body (st : traced_state) (timestamp : WordTimestamp) : traced_state :=
  let end_ := w_end timestamp in
  let word := w_text timestamp in
  let caption_text' := t_caption_text st ++ " "%char :: word in
  let word_count' := (t_word_count st + 1)%Z in
  let words' := cur_words st ++ [timestamp] in
  if closes word_count' word
  then {| t_clips := t_clips st ++
                     [ ({| seg_start := t_start_time st; seg_end := end_;
                           seg_text := strip caption_text' |}, words') ];
          t_start_time := end_;
          t_caption_text := [];
          t_word_count := 0;
          cur_words := [] |}
  else {| t_clips := t_clips st;
          t_start_time := t_start_time st;
          t_caption_text := caption_text';
          t_word_count := word_count';
          cur_words := words' |}.

Definition traced_flush (st : traced_state) (duration : time)
  : list (CaptionSegment * list WordTimestamp) :=
  match t_caption_text st with
  | [] => t_clips st
  | _ :: _ => t_clips st ++
              [ ({| seg_start := t_start_time st; seg_end := duration;
                    seg_text := strip (t_caption_text st) |}, cur_words st) ]
  end.

Definition captions_with_words
    (timestamps : list WordTimestamp) (duration : time)
  : list (CaptionSegment * list WordTimestamp) :=
  match timestamps with
  | [] => []
  | _ => traced_flush (fold_left traced_body timestamps traced_init) duration
  end.

(** [caption_text] as built from a list of words: [" w1 w2 ... wk"]. *)
Definition caption_of (ws : list WordTimestamp) : str :=
  concat (map (fun w => " "%char :: w_text w) ws).

Definition ends_sentence (w : WordTimestamp) : bool :=
  endswith_any (w_text w) terminal_punctuation.

(** [segs] run back to back from time [from] up to time [to]. *)
Fixpoint chained (from : time) (segs : list CaptionSegment) (to : time) : Prop :=
  match segs with
  | [] => from = to
  | s :: rest => seg_start s = from /\ chained (seg_end s) rest to
  end.

(** A caption closed inside the loop on its last word [w]: the words before
    [w] did not close it, and [w] did. *)
Definition closed_group (s : CaptionSegment) (g : list WordTimestamp) : Prop :=
  exists g0 w,
    g = g0 ++ [w] /\
    (Z.of_nat (length g0) < max_caption_words)%Z /\
    Forall (fun v => ends_sentence v = false) g0 /\
    closes (Z.of_nat (length g)) (w_text w) = true /\
    seg_end s = w_end w /\
    seg_text s = strip (caption_of g).

(** The caption left open when the words run out. *)
Definition open_group (duration : time) (s : CaptionSegment)
    (g : list WordTimestamp) : Prop :=
  g <> [] /\
  (Z.of_nat (length g) < max_caption_words)%Z /\
  Forall (fun v => ends_sentence v = false) g /\
  seg_end s = duration /\
  seg_text s = strip (caption_of g).

(** Forgetting the remembered words gives back the loop variables of the
    source. *)
Definition erase (st : traced_state) : loop_state :=
  {| clips := map fst (t_clips st);
     start_time := t_start_time st;
     caption_text := t_caption_text st;
     word_count := t_word_count st |}.

(** What holds of the loop variables after the words [ws]. *)
Record loop_inv (st : traced_state) (ws : list WordTimestamp) : Prop := {
  inv_words : concat (map snd (t_clips st)) ++ cur_words st = ws;
  inv_text : t_caption_text st = caption_of (cur_words st);
  inv_count : t_word_count st = Z.of_nat (length (cur_words st));
  inv_below : (t_word_count st < max_caption_words)%Z;
  inv_open : Forall (fun v => ends_sentence v = false) (cur_words st);
  inv_closed : Forall (fun sg => closed_group (fst sg) (snd sg)) (t_clips st);
  inv_chain : chained t0 (map fst (t_clips st)) (t_start_time st)
}.

End Segmentation.

Arguments WordTimestamp : clear implicits.
Arguments CaptionSegment : clear implicits.
Arguments loop_state : clear implicits.
Arguments traced_state : clear implicits.

(** Transcripts to run the loop on, with times in seconds. *)
Section Transcripts.
Local Open Scope Q_scope.

Definition word (start end_ : Q) (text : string) : WordTimestamp Q :=
  {| w_start := start; w_end := end_; w_text := lit text |}.

Definition seg (start end_ : Q) (text : string) : CaptionSegment Q :=
  {| seg_start := start; seg_end := end_; seg_text := lit text |}.

Definition hi_there_friend : list (WordTimestamp Q) :=
  [word 0 0.4 "Hi"; word 0.5 0.9 "there"; word 1 1.5 "friend."].

Definition nine_words : list (WordTimestamp Q) :=
  [word 0 1 "one"; word 1 2 "two"; word 2 3 "three"; word 3 4 "four";
   word 4 5 "five"; word 5 6 "six"; word 6 7 "seven"; word 7 8 "eight";
   word 8 9 "nine"].

End Transcripts.

End Segmenter.

(** ** Python's [round] *)

Module Trim.
Local Open Scope Q_scope.

(** [round(x)]: the nearest integer, a tie going to the even one. *)
Definition round_half_even (x : Q) : Z :=
  let f := Qfloor x in
  match Qcompare (x - inject_Z f) (1 # 2) with
  | Lt => f
  | Gt => (f + 1)%Z
  | Eq => if Z.even f then f else (f + 1)%Z
  end.

(** The number of two decimals nearest to [x], a tie going to the even
    one. *)
Definition round2 (x : Q) : Q := inject_Z (round_half_even (x * 100)) / 100.

End Trim.

(** ** Floating-point arithmetic: Python's [float]

    A finite [float] is the rational it denotes; an operation gives the
    float nearest to the exact result, a tie going to the even
    significand (IEEE 754 binary64: 53 bits, exponents from -1074). *)

Module Binary64.
Local Open Scope Q_scope.

(** [floor(log2 |x|)], for [x] other than 0. *)
Definition exponent (x : Q) : Z :=
  let e := (Z.log2 (Z.abs (Qnum x)) - Z.log2 (Zpos (Qden x)))%Z in
  if Qle_bool (2 ^ e) (Qabs x) then e else (e - 1)%Z.

(** The distance between the floats around [x]. *)
Definition ulp (x : Q) : Q := 2 ^ Z.max (exponent x - 52) (-1074).

(** The float nearest to [x], were there no largest float. *)
Definition rnd (x : Q) : Q := inject_Z (Trim.round_half_even (x / ulp x)) * ulp x.

(** How a computation on floats ends. *)
Inductive float_result (A : Type) :=
| Finite (x : A)
| NotFinite            (* [inf] or [nan], or [OverflowError] *)
| ZeroDivisionError.
Arguments Finite {A} x.
Arguments NotFinite {A}.
Arguments ZeroDivisionError {A}.

(** The result of an operation whose exact result is [x]. *)
Definition fl (x : Q) : float_result Q :=
  if Qle_bool (2 ^ 1024) (Qabs (rnd x)) then NotFinite else Finite (rnd x).

Definition bind {A B : Type} (r : float_result A) (f : A -> float_result B)
  : float_result B :=
  match r with
  | Finite x => f x
  | NotFinite => NotFinite
  | ZeroDivisionError => ZeroDivisionError
  end.

(** [x * y] *)
Definition mul (x y : Q) : float_result Q := fl (x * y).

(** [x / y] *)
Definition div (x y : Q) : float_result Q :=
  if Qeq_bool y 0 then ZeroDivisionError else fl (x / y).

(** [x // y]: the floor of the exact quotient of the two floats, as a
    float (CPython finds it from the exact remainder [fmod(x, y)]). *)
Definition floordiv (x y : Q) : float_result Q :=
  if Qeq_bool y 0 then ZeroDivisionError else fl (inject_Z (Qfloor (x / y))).

(** [round(x, 2)]: the float nearest to the nearest number of two
    decimals. *)
Definition round_2 (x : Q) : float_result Q := fl (Trim.round2 x).

(** [float(n)] of an [int]. *)
Definition of_int (n : Z) : float_result Q := fl (inject_Z n).

(** A literal or a value read from outside: the float written [x]. *)
Definition float_of (x : Q) : Q := rnd x.

End Binary64.

(** ** Trim before writing: [end_time] in [start_process] *)

Module EndTime.
Import Binary64.
Local Open Scope Q_scope.

(** [round(((duration * 100 // fps) * fps / 100), 2)], line 389, on the
    floats [output_video.duration] and [output_video.fps]. *)
Definition end_time (duration fps : Q) : float_result Q :=
  bind (mul duration 100) (fun hundredths =>
  bind (floordiv hundredths fps) (fun steps =>
  bind (mul steps fps) (fun product =>
  bind (div product 100) round_2))).

(** The duration rounded down to a whole number of frames, as the
    specification words it: [floor(d * fps) / fps]. *)
Definition whole_frame_floor (d fps : Q) : Q :=
  inject_Z (Qfloor (d * fps)) / fps.

End EndTime.

(** ** Saving the output: the retry loop of [start_process] *)

Module Retry.

(** What one call of [output_video.write_videofile] does: return, raise
    [IOError], or raise any other exception. *)
Inductive write_result := WriteOk | WriteIOError | WriteOtherError.

(** What the worker does that can be observed from outside. *)
Inductive event :=
| Write (pos : nat)          (* write_videofile, in iteration [pos] *)
| LogWarning (attempt : nat) (* logging.warning("... Trying again {pos + 1}/5") *)
| Sleep (seconds : nat)      (* time.sleep(1) *)
| LogError                   (* logging.error("ERROR Saving: ...") *)
| CloseInput                 (* input_video.close() *)
| CloseOutput                (* output_video.close() *)
| LogRuntime                 (* logging.info("Runtime: ...") *)
| SetStatus (complete : bool). (* processes_status_dict[pid] = complete *)

(** How the [for] statement is left. *)
Inductive loop_exit := Break | Exhausted | Raised.

(** How [start_process] is left. *)
Inductive process_exit := Returned | Died.

(** [for pos in range(5): try ... except IOError ... else: ...], on the
    positions still to run.  [writer pos] is what the call made in
    iteration [pos] does. *)
Fixpoint retry_loop (writer : nat -> write_result) (positions : list nat)
  : list event * loop_exit :=
  match positions with
  | [] => ([LogError], Exhausted)
  | pos :: rest =>
      match writer pos with
      | WriteOk => ([Write pos], Break)
      | WriteOtherError => ([Write pos], Raised)
      | WriteIOError =>
          let (trace, how) := retry_loop writer rest in
          (Write pos :: LogWarning (pos + 1) :: Sleep 1 :: trace, how)
      end
  end.

(** Lines 413 to 421, run when the [for] statement is left normally. *)
Definition closing : list event :=
  [CloseInput; CloseOutput; LogRuntime; SetStatus true].

(** Lines 394 to 421. *)
Definition save_output (writer : nat -> write_result)
  : list event * process_exit :=
  match retry_loop writer (seq 0 5) with
  | (trace, Raised) => (trace, Died)
  | (trace, _) => (trace ++ closing, Returned)
  end.

(** The events of [k] failed iterations starting at position [from]. *)
Definition failed_attempts (from k : nat) : list event :=
  concat (map (fun pos => [Write pos; LogWarning (pos + 1); Sleep 1])
              (seq from k)).

Definition is_write (e : event) : bool :=
  match e with Write _ => true | _ => false end.

Definition is_warning (e : event) : bool :=
  match e with LogWarning _ => true | _ => false end.

Definition is_error (e : event) : bool :=
  match e with LogError => true | _ => false end.

Definition count (f : event -> bool) (trace : list event) : nat :=
  length (filter (fun e => f e = true) trace).

(** The value of the worker's entry in [processes_status_dict] that the
    trace leaves behind, if it writes one: all the scheduler gets to see. *)
Definition reported (trace : list event) : option bool :=
  last (omap (fun e => match e with SetStatus b => Some b | _ => None end) trace).

End Retry.

(** ** The scheduler: the [while] loop of [__main__] and its workers *)

Module Scheduler.

(** How far a worker process has come in [start_process]. *)
Inductive worker_phase :=
| Started    (* [p.start()] done, nothing written yet *)
| Working    (* [processes_status_dict[pid] = False] written (line 377) *)
| Finished   (* [processes_status_dict[pid] = True] written (line 421) *)
| Crashed.   (* the process ended before line 421 *)

(** Where the main process stands.  [AtFor items] is the [for] statement of
    line 511 with the pairs still to visit; [items()] of a manager's dict
    is a copy taken when the statement starts. *)
Inductive pc :=
| AtWhile                                  (* line 499 *)
| AtIf                                     (* line 501 *)
| AtStore (pid : Z) (file_name : string)   (* line 507, [p.start()] done *)
| AtIncr                                   (* line 508 *)
| AtItems                                  (* line 511 *)
| AtFor (items : list (Z * bool))          (* lines 511 to 513 *)
| AtDelProcess (pid : Z) (rest : list (Z * bool))  (* line 514 *)
| AtDelStatus (pid : Z) (rest : list (Z * bool))   (* line 515 *)
| AtDecr (rest : list (Z * bool))          (* line 516 *)
| Done                                     (* line 519: the loop is left *)
| KeyError.                                (* uncaught [KeyError] *)

(** The variables of the main process, the shared dict, and the worker
    processes that were started and not yet joined.  [reaped] lists the
    joined workers, oldest first: the file each ran and the phase it was
    joined in. *)
Record state := mkState {
  at_line : pc;
  video_queue : list string;
  processes : gmap Z string;
  num_active_processes : Z;
  processes_status_dict : gmap Z bool;
  workers : gmap Z worker_phase;
  reaped : list (string * worker_phase)
}.

Definition init (input_video_names : list string) : state :=
  mkState AtWhile input_video_names ∅ 0 ∅ ∅ [].

(** A process on which [join] returns: it has ended, or it has run the
    last statement of [start_process] and ends with nothing more done. *)
Definition exited (ph : worker_phase) : Prop := ph = Finished \/ ph = Crashed.

(** The statements of the main process.  [max_processes] is
    [MAX_NUMBER_OF_PROCESSES]. *)
Inductive main_step (max_processes : nat) : state -> state -> Prop :=
| step_while_enter q P n D W R :
    q <> [] \/ P <> ∅ ->
    main_step max_processes (mkState AtWhile q P n D W R) (mkState AtIf q P n D W R)
| step_while_exit n D W R :
    main_step max_processes (mkState AtWhile [] ∅ n D W R) (mkState Done [] ∅ n D W R)
| step_start file_name q P n D W R pid :
    (n < Z.of_nat max_processes)%Z ->
    W !! pid = None ->
    main_step max_processes
      (mkState AtIf (file_name :: q) P n D W R)
      (mkState (AtStore pid file_name) q P n D (<[pid := Started]> W) R)
| step_no_start q P n D W R :
    ~ ((n < Z.of_nat max_processes)%Z /\ q <> []) ->
    main_step max_processes (mkState AtIf q P n D W R) (mkState AtItems q P n D W R)
| step_store pid file_name q P n D W R :
    main_step max_processes
      (mkState (AtStore pid file_name) q P n D W R)
      (mkState AtIncr q (<[pid := file_name]> P) n D W R)
| step_incr q P n D W R :
    main_step max_processes (mkState AtIncr q P n D W R) (mkState AtItems q P (n + 1) D W R)
| step_items q P n D W R :
    main_step max_processes
      (mkState AtItems q P n D W R) (mkState (AtFor (map_to_list D)) q P n D W R)
| step_for_done q P n D W R :
    main_step max_processes (mkState (AtFor []) q P n D W R) (mkState AtWhile q P n D W R)
| step_for_incomplete pid rest q P n D W R :
    main_step max_processes
      (mkState (AtFor ((pid, false) :: rest)) q P n D W R)
      (mkState (AtFor rest) q P n D W R)
| step_join pid rest q P n D W R file_name ph :
    P !! pid = Some file_name ->
    W !! pid = Some ph ->
    exited ph ->
    main_step max_processes
      (mkState (AtFor ((pid, true) :: rest)) q P n D W R)
      (mkState (AtDelProcess pid rest) q P n D (delete pid W) (R ++ [(file_name, ph)]))
| step_join_missing pid rest q P n D W R :
    P !! pid = None ->
    main_step max_processes
      (mkState (AtFor ((pid, true) :: rest)) q P n D W R)
      (mkState KeyError q P n D W R)
| step_del_process pid rest q P n D W R :
    main_step max_processes
      (mkState (AtDelProcess pid rest) q P n D W R)
      (mkState (AtDelStatus pid rest) q (delete pid P) n D W R)
| step_del_status pid rest q P n D W R :
    is_Some (D !! pid) ->
    main_step max_processes
      (mkState (AtDelStatus pid rest) q P n D W R)
      (mkState (AtDecr rest) q P n (delete pid D) W R)
| step_del_status_missing pid rest q P n D W R :
    D !! pid = None ->
    main_step max_processes
      (mkState (AtDelStatus pid rest) q P n D W R)
      (mkState KeyError q P n D W R)
| step_decr rest q P n D W R :
    main_step max_processes
      (mkState (AtDecr rest) q P n D W R) (mkState (AtFor rest) q P (n - 1) D W R).

(** What a worker process does to the shared state, at any time. *)
Inductive worker_step : state -> state -> Prop :=
| worker_mark l q P n D W R pid :
    W !! pid = Some Started ->
    worker_step (mkState l q P n D W R)
                (mkState l q P n (<[pid := false]> D) (<[pid := Working]> W) R)
| worker_finish l q P n D W R pid :
    W !! pid = Some Working ->
    worker_step (mkState l q P n D W R)
                (mkState l q P n (<[pid := true]> D) (<[pid := Finished]> W) R)
| worker_crash l q P n D W R pid ph :
    W !! pid = Some ph ->
    ph = Started \/ ph = Working ->
    worker_step (mkState l q P n D W R)
                (mkState l q P n D (<[pid := Crashed]> W) R).

Definition step (max_processes : nat) (s s' : state) : Prop :=
  main_step max_processes s s' \/ worker_step s s'.

Definition reachable (max_processes : nat) (names : list string) (s : state) : Prop :=
  rtc (step max_processes) (init names) s.

(** The test of the [while] statement. *)
Definition draining (s : state) : Prop :=
  video_queue s <> [] \/ processes s <> ∅.

(** The pairs still to visit name distinct processes, and those seen
    complete are still marked complete. *)
Definition items_ok (D : gmap Z bool) (items : list (Z * bool)) : Prop :=
  NoDup items.*1 /\ forall pid, (pid, true) ∈ items -> D !! pid = Some true.

(** The process whose entries the main process is removing. *)
Definition reaping (l : pc) : option Z :=
  match l with
  | AtDelProcess pid _ | AtDelStatus pid _ => Some pid
  | _ => None
  end.

(** How the variables relate at each line. *)
Definition line_inv (max_processes : nat) (s : state) : Prop :=
  let P := processes s in
  let W := workers s in
  let n := num_active_processes s in
  let D := processes_status_dict s in
  match at_line s with
  | AtWhile | AtIf | AtItems =>
      dom W = dom P /\ n = Z.of_nat (size P)
  | AtStore pid _ =>
      dom W = {[pid]} ∪ dom P /\ (pid ∉ dom P) /\ n = Z.of_nat (size P)
  | AtIncr =>
      dom W = dom P /\ (n + 1)%Z = Z.of_nat (size P)
  | AtFor items =>
      dom W = dom P /\ n = Z.of_nat (size P) /\ items_ok D items
  | AtDelProcess pid rest =>
      dom P = {[pid]} ∪ dom W /\ (pid ∉ dom W) /\ n = Z.of_nat (size P) /\
      D !! pid = Some true /\ (pid ∉ rest.*1) /\ items_ok D rest
  | AtDelStatus pid rest =>
      dom W = dom P /\ (pid ∉ dom W) /\ n = Z.of_nat (S (size P)) /\
      D !! pid = Some true /\ (pid ∉ rest.*1) /\ items_ok D rest
  | AtDecr rest =>
      dom W = dom P /\ n = Z.of_nat (S (size P)) /\ items_ok D rest
  | Done =>
      W = ∅ /\ P = ∅ /\ video_queue s = []
  | KeyError => False
  end.

(** What holds in every state the program reaches from [jobs] queued
    file names. *)
Record inv (max_processes jobs : nat) (s : state) : Prop := {
  inv_account :
    length (video_queue s) + size (workers s) + length (reaped s) = jobs;
  inv_cap : size (workers s) <= max_processes;
  inv_tracked : size (processes s) <= max_processes;
  inv_counter : (0 <= num_active_processes s <= Z.of_nat max_processes)%Z;
  inv_status : forall pid b,
    processes_status_dict s !! pid = Some b ->
    reaping (at_line s) = Some pid \/
    (b = true /\ workers s !! pid = Some Finished) \/
    (b = false /\ exists ph, workers s !! pid = Some ph /\ ph <> Started /\ ph <> Finished);
  inv_reaped : Forall (fun r => r.2 = Finished) (reaped s);
  inv_line : line_inv max_processes s
}.

(** One file queued, one process allowed; the worker has written [False]
    and then ended early, and the main process is about to read the dict. *)
Definition crashed_example : state :=
  mkState AtItems [] {[0%Z := "a.mp4"%string]} 1 {[0%Z := false]}
          {[0%Z := Crashed]} [].

(** The next line of the main process after [crashed_example]: the copy
    of the dict shows the worker as not complete. *)
Definition crashed_example_later : state :=
  mkState (AtFor [(0%Z, false)]) [] {[0%Z := "a.mp4"%string]} 1
          {[0%Z := false]} {[0%Z := Crashed]} [].

(** The same run with a worker that finished, after it was reaped. *)
Definition reaped_example : state :=
  mkState AtWhile [] ∅ 0 ∅ ∅ [("a.mp4"%string, Finished)].

End Scheduler.

(** ** Subtitle export: [SRTGenerator.format_srt] and [format_timestamp] *)

Module Srt.
Import Text.

Definition nl : ascii := ascii_of_nat 10.

(** The character of a digit [0..9]. *)
Definition digit (d : Z) : ascii := ascii_of_nat (48 + Z.to_nat d).

Definition is_digit (c : ascii) : bool :=
  let n := nat_of_ascii c in (48 <=? n) && (n <=? 57).

(** The decimal digits of [n >= 0], most significant first, in front of
    [acc]. *)
Fixpoint decimal_from (fuel : nat) (n : Z) (acc : str) : str :=
  match fuel with
  | O => acc
  | S fuel' =>
      let acc' := digit (n mod 10) :: acc in
      if (n <? 10)%Z then acc' else decimal_from fuel' (n / 10) acc'
  end.

Definition decimal (n : Z) : str := decimal_from (S (Z.to_nat n)) n [].

(** [str(n)], which is what [f"{n}"] gives for an [int]. *)
Definition str_int (n : Z) : str :=
  if (n <? 0)%Z then "-"%char :: decimal (- n) else decimal n.

Definition zero_pad (width : nat) (digits : str) : str :=
  repeat "0"%char (width - length digits) ++ digits.

(** [f"{n:0w}"] for an [int]: at least [w] characters, zeros between the
    sign and the digits. *)
Definition format_int (width : nat) (n : Z) : str :=
  if (n <? 0)%Z then "-"%char :: zero_pad (width - 1) (decimal (- n))
  else zero_pad width (decimal n).

(** The number a string of digits writes. *)
Definition number_of (s : str) : Z :=
  fold_left (fun v c => (10 * v + (Z.of_nat (nat_of_ascii c) - 48))%Z) s 0%Z.

Section Seconds.
Local Open Scope Q_scope.

(** [x // m] and [x % m] for [m > 0]. *)
Definition floordiv (x m : Q) : Q := inject_Z (Qfloor (x / m)).
Definition fmod (x m : Q) : Q := x - m * floordiv x m.

(** [int(x)]: towards zero. *)
Definition int_of (x : Q) : Z := if Qle_bool 0 x then Qfloor x else Qceiling x.

Definition hours_of (seconds : Q) : Z := int_of (floordiv seconds 3600).
Definition minutes_of (seconds : Q) : Z := int_of (floordiv (fmod seconds 3600) 60).
Definition secs_of (seconds : Q) : Z := int_of (fmod seconds 60).
Definition milliseconds_of (seconds : Q) : Z := int_of (fmod seconds 1 * 1000).

(** [f"{hours:02}:{minutes:02}:{secs:02},{milliseconds:03}"] *)
Definition format_timestamp (seconds : Q) : str :=
  format_int 2 (hours_of seconds) ++ ":"%char ::
  format_int 2 (minutes_of seconds) ++ ":"%char ::
  format_int 2 (secs_of seconds) ++ ","%char ::
  format_int 3 (milliseconds_of seconds).

(** A transcription segment, as far as [format_srt] reads it. *)
Record segment := mkSegment {
  seg_start : Q;   (* segment['start'] *)
  seg_end : Q;     (* segment['end'] *)
  seg_text : str   (* segment['text'] *)
}.

(** [f"{i + 1}\n{start_time} --> {end_time}\n{text}\n\n"] *)
Definition cue_block (i : nat) (seg : segment) : str :=
  str_int (Z.of_nat i + 1) ++ nl ::
  format_timestamp (seg_start seg) ++ lit " --> " ++
  format_timestamp (seg_end seg) ++ nl ::
  seg_text seg ++ [nl; nl].

(** [enumerate(segments)], counting from [i]. *)
Fixpoint enumerate_from (i : nat) (segments : list segment) : list (nat * segment) :=
  match segments with
  | [] => []
  | seg :: rest => (i, seg) :: enumerate_from (S i) rest
  end.

Definition format_srt (segments : list segment) : str :=
  fold_left (fun srt_content '(i, seg) => srt_content ++ cue_block i seg)
            (enumerate_from 0 segments) [].

End Seconds.

(** A string of the shape [dd], [ddd], ...: exactly [width] digits. *)
Definition digits_of_width (width : nat) (s : str) : Prop :=
  length s = width /\ forallb is_digit s = true.

End Srt.

(** ** Captions: shape of the texts and order of the times *)

Module Captions.
Import Text Segmenter.

(** No white space at either end. *)
Definition trimmed (s : str) : Prop :=
  (forall c, head s = Some c -> isspace c = false) /\
  (forall c, last s = Some c -> isspace c = false).

Section Ordered.
Context {time : Type} (t0 : time) (le : time -> time -> Prop).

(** The word ends never go back: [from <= end_1 <= ... <= end_n <= to]. *)
Fixpoint ends_ordered (from : time) (ws : list (WordTimestamp time)) (to : time)
  : Prop :=
  match ws with
  | [] => le from to
  | w :: rest => le from (w_end w) /\ ends_ordered (w_end w) rest to
  end.

(** A segment that lies between [0] and [d], start before end. *)
Definition inside (d : time) (s : CaptionSegment time) : Prop :=
  le t0 (seg_start s) /\ le (seg_start s) (seg_end s) /\ le (seg_end s) d.

End Ordered.

End Captions.

(** ** [Tools.round_down] *)

Module Tools.
Local Open Scope Q_scope.

(** [math.floor(num * 10 ** decimals) / 10 ** decimals] *)
Definition round_down (num : Q) (decimals : Z) : Q :=
  inject_Z (Qfloor (num * 10 ^ decimals)) / 10 ^ decimals.

End Tools.

(** ** Background clips: [BackgroudVideo] *)

Module Background.
Local Open Scope Q_scope.

(** [BackgroudVideo.trim_clip].  [u] is what
    [random.uniform(0, clip.duration - duration)] returned; the result is
    the window handed to [clip.subclip], [None] the [ValueError]. *)
Definition trim_clip (clip_duration duration u : Q) : option (Q * Q) :=
  if Qle_bool duration clip_duration
  then let clip_start_time := Tools.round_down u 0 in
       Some (clip_start_time, clip_start_time + duration)
  else None.

(** [BackgroudVideo.get_target_resolution], for [FULL_RESOLUTION] and
    [PERCENT_MAIN_CLIP] of the configuration. *)
Definition get_target_resolution (full_resolution : Z * Z) (percent_main_clip : Q)
  : Z * Z :=
  (full_resolution.1,
   Trim.round_half_even
     (inject_Z full_resolution.2 * (1 - percent_main_clip / 100))).

End Background.

(** ** [VideoTools.crop] *)

Module Crop.
Local Open Scope Q_scope.

(** [target / original] on two [int]s, [None] for [ZeroDivisionError]. *)
Definition ratio (target original : Z) : option Q :=
  if (original =? 0)%Z then None
  else Some (inject_Z target / inject_Z original).

(** [max(a, b)] *)
Definition max_of (a b : Q) : Q := if Qle_bool a b then b else a.

(** The size asked of [clip.resize],
    [(original_width * max_ratio, original_height * max_ratio)], as the
    floats the code computes from the four [int]s. *)
Definition float_resize_request (original : Z * Z) (width height : Z)
  : Binary64.float_result (Q * Q) :=
  let (original_width, original_height) := original in
  Binary64.bind (Binary64.div (inject_Z width) (inject_Z original_width))
    (fun width_change_ratio =>
  Binary64.bind (Binary64.div (inject_Z height) (inject_Z original_height))
    (fun height_change_ratio =>
  let max_ratio := max_of width_change_ratio height_change_ratio in
  Binary64.bind
    (Binary64.bind (Binary64.of_int original_width)
                   (fun w => Binary64.mul w max_ratio))
    (fun new_width =>
  Binary64.bind
    (Binary64.bind (Binary64.of_int original_height)
                   (fun h => Binary64.mul h max_ratio))
    (fun new_height =>
  Binary64.Finite (new_width, new_height))))).

(** The same size in exact arithmetic. *)
Definition resize_request (original : Z * Z) (width height : Z) : option (Q * Q) :=
  match ratio width original.1, ratio height original.2 with
  | Some width_change_ratio, Some height_change_ratio =>
      let max_ratio := max_of width_change_ratio height_change_ratio in
      Some (inject_Z original.1 * max_ratio, inject_Z original.2 * max_ratio)
  | _, _ => None
  end.

(** What is done to the resized clip. *)
Inductive crop_plan :=
| Uncropped                                   (* neither branch is taken *)
| CropRows (new_y1 new_y2 : Z)                (* moviepy_crop(clip, y1=, y2=) *)
| CropColumns (new_x1 new_x2 : Z) (width height : Z).
                      (* moviepy_crop(clip, x1=, x2=), then resize((width, height)) *)

(** The branches of lines 80 to 92; [resized] is [self.clip.size] after the
    resize. *)
Definition crop (original resized : Z * Z) (width height : Z) : option crop_plan :=
  match ratio width original.1, ratio height original.2 with
  | Some width_change_ratio, Some height_change_ratio =>
      let (new_width, new_height) := resized in
      if negb (Qle_bool width_change_ratio height_change_ratio) then
        let height_change := (new_height - height)%Z in
        let new_y1 := Trim.round_half_even (inject_Z height_change / 2) in
        let new_y2 := Z.min (new_y1 + height) new_height in
        Some (CropRows new_y1 new_y2)
      else if negb (Qle_bool height_change_ratio width_change_ratio) then
        let width_change := (new_width - width)%Z in
        let new_x1 := Trim.round_half_even (inject_Z width_change / 2) in
        let new_x2 := Z.min (new_x1 + width) new_width in
        Some (CropColumns new_x1 new_x2 width height)
      else Some Uncropped
  | _, _ => None
  end.

End Crop.

(** ** Model download: [check_command] and [clone_respository] *)

Module Bootstrap.
Import Text.

(** What [subprocess.run] does: it completes with a return code and the
    text of standard output, or raises an exception whose [str(e)] is
    [message]. *)
Inductive run_result :=
| Completed (returncode : Z) (stdout : str)
| RunRaised (message : str).

(** [check_command]: [Some s] is the string [s], [None] is [None]. *)
Definition check_command (r : run_result) : option str :=
  match r with
  | Completed returncode stdout =>
      if (returncode =? 0)%Z then Some (strip stdout) else None
  | RunRaised message => Some message
  end.

(** [not v] for [v] a string or [None]. *)
Definition is_falsy (v : option str) : bool :=
  match v with
  | None | Some [] => true
  | Some (_ :: _) => false
  end.

Inductive clone_result :=
| GitNotInstalled        (* Exception("Git is not installed. ...") *)
| GitLfsNotInstalled     (* Exception("Git LFS is not installed. ...") *)
| CalledProcessError     (* [git clone] ended with a non-zero code ([check=True]) *)
| CloneRaised (message : str) (* [subprocess.run] raised for [git clone] *)
| Cloned.

Definition git_version : list string := ["git"; "--version"]%string.
Definition git_lfs_version : list string := ["git"; "lfs"; "version"]%string.
Definition git_clone (repo_url : string) : list string :=
  ["git"; "clone"; repo_url]%string.

(** [clone_respository]; [run] is [subprocess.run] on a command line. *)
Definition clone_respository (run : list string -> run_result) (repo_url : string)
  : clone_result :=
  if is_falsy (check_command (run git_version)) then GitNotInstalled
  else if is_falsy (check_command (run git_lfs_version)) then GitLfsNotInstalled
  else match run (git_clone repo_url) with
       | Completed returncode _ =>
           if (returncode =? 0)%Z then Cloned else CalledProcessError
       | RunRaised message => CloneRaised message
       end.

(** A run after which [check_command] gives a value that [not] takes for
    missing: a non-zero return code, only white space on standard output,
    or an exception with an empty message. *)
Definition looks_missing (r : run_result) : Prop :=
  match r with
  | Completed returncode stdout =>
      returncode <> 0%Z \/ forallb isspace stdout = true
  | RunRaised message => message = []
  end.

End Bootstrap.

(** ** The whole of [start_process] *)

Module Worker.
Import Retry.

(** Lines 377 to 421.  [loaded] and [processed] tell whether
    [VideoFileClip(...)] (line 380) and [VideoCreation(...).process()] with
    the trim (lines 383 to 392) return rather than raise. *)
Definition start_process (loaded processed : bool) (writer : nat -> write_result)
  : list event * process_exit :=
  if loaded && processed
  then (SetStatus false :: fst (save_output writer), snd (save_output writer))
  else ([SetStatus false], Died).

(** The values written to the worker's entry of [processes_status_dict],
    in order. *)
Definition flags (trace : list event) : list bool :=
  omap (fun e => match e with SetStatus b => Some b | _ => None end) trace.

Definition is_close (e : event) : bool :=
  match e with CloseInput | CloseOutput => true | _ => false end.

(** An event that neither writes the flag nor closes a clip. *)
Definition plain (e : event) : Prop :=
  match e with
  | SetStatus _ | CloseInput | CloseOutput => False
  | _ => True
  end.

End Worker.

(** ** Where the subtitle file goes: [SRTGenerator.generate_srt] *)

Module SrtPath.
Import Text.

(** [s.replace(old, new)] for a non-empty [old]: the occurrences of [old]
    are taken from the left, without overlap.  [skip] counts the characters
    of a match still to pass over. *)
Fixpoint replace_from (skip : nat) (s old new : str) : str :=
  match s with
  | [] => []
  | c :: rest =>
      match skip with
      | S k => replace_from k rest old new
      | O =>
          if startswith s old
          then new ++ replace_from (length old - 1) rest old new
          else c :: replace_from 0 rest old new
      end
  end.

Definition replace (s old new : str) : str := replace_from 0 s old new.

Definition is_slash (c : ascii) : bool := Ascii.eqb c "/"%char.

(** [os.path.basename(p)]: what follows the last ["/"], all of [p] when
    it has none. *)
Fixpoint basename (p : str) : str :=
  match p with
  | [] => []
  | c :: rest =>
      if existsb is_slash rest then basename rest
      else if is_slash c then rest else p
  end.

(** [os.path.basename(self.video_file).replace(".mp4", ".srt")] *)
Definition srt_file_name (video_file : str) : str :=
  replace (basename video_file) (lit ".mp4") (lit ".srt").

(** [old] does not start at any of the first [n] positions of [s]. *)
Fixpoint absent_before (n : nat) (s old : str) : bool :=
  match n with
  | O => true
  | S k =>
      negb (startswith s old) &&
      match s with
      | [] => true
      | _ :: rest => absent_before k rest old
      end
  end.

(** No ["/"] in [s]. *)
Definition slash_free (s : str) : bool := negb (existsb is_slash s).

End SrtPath.

(** ** The first crop of [BackgroudVideo.get_clip] *)

Module GetClip.
Local Open Scope Q_scope.

(** [round(width * 0.9)] *)
Definition narrowed_width (width : Z) : Z :=
  Trim.round_half_even (inject_Z width * 0.9).

(** [VideoTools(trimmed_clip).crop(round(width * 0.9), height)], for a
    [resize] that leaves a clip asked for its own size at that size. *)
Definition first_crop (width height : Z) : option Crop.crop_plan :=
  Crop.crop (width, height) (width, height) (narrowed_width width) height.

End GetClip.

(** ** Joining a worker: lines 512 and 513 *)

Module Join.
Import Scheduler.

(** The process whose [join] is the next statement of the main process:
    the [for] stands at a pair whose flag was read as [True]. *)
Definition joining (l : pc) : option Z :=
  match l with
  | AtFor ((pid, true) :: _) => Some pid
  | _ => None
  end.

(** One file queued and one process allowed; the worker has written
    [True], and the main process has read the dict and is about to call
    [join]. *)
Definition finished_example : state :=
  mkState (AtFor [(0%Z, true)]) [] {[0%Z := "a.mp4"%string]} 1
          {[0%Z := true]} {[0%Z := Finished]} [].

End Join.

(** * Properties *)

(** ** Python string operations *)

Section TextFacts.
Import Text.

Example strip_both_ends :
  strip (lit "  Hi there friend. ") = lit "Hi there friend.".
Proof. reflexivity. Qed.

Example strip_keeps_inner_space : strip (lit " a  b") = lit "a  b".
Proof. reflexivity. Qed.

Example endswith_any_full_stop :
  endswith_any (lit "friend.") [lit "."; lit "!"; lit "?"] = true.
Proof. reflexivity. Qed.

Example endswith_any_plain_word :
  endswith_any (lit "there") [lit "."; lit "!"; lit "?"] = false.
Proof. reflexivity. Qed.

Example endswith_any_empty_word :
  endswith_any [] [lit "."; lit "!"; lit "?"] = false.
Proof. reflexivity. Qed.

Example split_runs : split (lit "  Hi   there friend. ") =
  [lit "Hi"; lit "there"; lit "friend."].
Proof. reflexivity. Qed.

Example normalize_runs : normalize (lit "  Hi   there friend. ") =
  lit "Hi there friend.".
Proof. reflexivity. Qed.

Lemma split_from_app_space (a : str) : forall cur c b,
  isspace c = true ->
  split_from cur (a ++ c :: b) = split_from cur a ++ split b.
Proof.
  induction a as [|x a IH]; intros cur c b Hc; simpl.
  - rewrite Hc. destruct cur; reflexivity.
  - destruct (isspace x).
    + destruct cur; simpl; rewrite (IH [] c b Hc); reflexivity.
    + apply IH, Hc.
Qed.

Lemma split_all_space (sp : str) :
  forallb isspace sp = true -> split sp = [].
Proof.
  unfold split. induction sp as [|c sp IH]; simpl; [reflexivity|].
  intros H. apply andb_prop in H as [Hc Hsp]. rewrite Hc. auto.
Qed.

Lemma split_from_trailing (sp : str) : forall a cur,
  forallb isspace sp = true -> split_from cur (a ++ sp) = split_from cur a.
Proof.
  destruct sp as [|c sp]; intros a cur H.
  - now rewrite app_nil_r.
  - simpl in H. apply andb_prop in H as [Hc Hsp].
    rewrite split_from_app_space by exact Hc.
    rewrite (split_all_space sp Hsp). apply app_nil_r.
Qed.

Lemma lstrip_decompose (s : str) :
  exists sp, forallb isspace sp = true /\ s = sp ++ lstrip s.
Proof.
  induction s as [|c s [sp [Hsp Hs]]]; simpl.
  - exists []. split; reflexivity.
  - destruct (isspace c) eqn:Hc.
    + exists (c :: sp). simpl. rewrite Hc, Hsp. split; [reflexivity|].
      now rewrite <- Hs.
    + exists []. split; reflexivity.
Qed.

Lemma rstrip_decompose (s : str) :
  exists sp, forallb isspace sp = true /\ s = rstrip s ++ sp.
Proof.
  destruct (lstrip_decompose (rev s)) as [sp [Hsp Hs]].
  exists (rev sp). split.
  - rewrite forallb_forall in *. intros x Hx. apply Hsp. now apply in_rev.
  - unfold rstrip. rewrite <- rev_app_distr, <- Hs. symmetry. apply rev_involutive.
Qed.

Lemma split_lstrip (s : str) : split (lstrip s) = split s.
Proof.
  unfold split. induction s as [|c s IH]; simpl; [reflexivity|].
  destruct (isspace c) eqn:Hc; [exact IH|]. simpl. now rewrite Hc.
Qed.

Lemma split_rstrip (s : str) : split (rstrip s) = split s.
Proof.
  destruct (rstrip_decompose s) as [sp [Hsp Hs]].
  rewrite Hs at 2. unfold split. now rewrite split_from_trailing.
Qed.

Lemma split_strip (s : str) : split (strip s) = split s.
Proof. unfold strip. now rewrite split_rstrip, split_lstrip. Qed.

Lemma split_join_space (parts : list str) :
  split (join_space parts) = concat (map split parts).
Proof.
  induction parts as [|p [|q rest] IH]; simpl.
  - reflexivity.
  - now rewrite app_nil_r.
  - unfold split at 1. rewrite split_from_app_space by reflexivity.
    fold (split p). f_equal. exact IH.
Qed.

Lemma strip_leading_space (s : str) : strip (" "%char :: s) = strip s.
Proof. reflexivity. Qed.

End TextFacts.

(** ** Caption segmentation *)

Section SegmenterFacts.
Import Text Segmenter.

Context {time : Type} (t0 : time).

Implicit Types (ws g : list (WordTimestamp time)) (w : WordTimestamp time).
Implicit Types (s : CaptionSegment time) (d : time).

Lemma erase_body st w :
  loop_body (erase st) w = erase (traced_body st w).
Proof.
  unfold loop_body, traced_body, erase; simpl.
  destruct (closes _ _); simpl; [|reflexivity].
  now rewrite map_app.
Qed.

Lemma erase_fold ws : forall st,
  fold_left loop_body ws (erase st) = erase (fold_left traced_body ws st).
Proof.
  induction ws as [|w ws IH]; intros st; simpl; [reflexivity|].
  rewrite erase_body. apply IH.
Qed.

Lemma erase_flush st d :
  flush (erase st) d = map fst (traced_flush st d).
Proof.
  unfold flush, traced_flush, erase; simpl.
  destruct (t_caption_text st); [reflexivity|].
  now rewrite map_app.
Qed.

Lemma captions_erase ws d :
  map fst (captions_with_words t0 ws d) = add_captions_to_video t0 ws d.
Proof.
  unfold captions_with_words, add_captions_to_video.
  destruct ws as [|w ws]; [reflexivity|].
  change (loop_init t0) with (erase (traced_init t0)).
  now rewrite erase_fold, erase_flush.
Qed.

Lemma chained_snoc (segs : list (CaptionSegment time)) : forall a s b,
  chained a (segs ++ [s]) b <->
  chained a segs (seg_start s) /\ seg_end s = b.
Proof.
  induction segs as [|x segs IH]; intros a s b; simpl.
  - intuition congruence.
  - rewrite IH. tauto.
Qed.

Lemma chained_adjacent (segs : list (CaptionSegment time)) : forall a b i s s',
  chained a segs b ->
  segs !! i = Some s -> segs !! (S i) = Some s' ->
  seg_end s = seg_start s'.
Proof.
  induction segs as [|x segs IH]; intros a b i s s' Hc Hi Hi'; [discriminate|].
  destruct Hc as [_ Hc]. destruct i as [|i]; simpl in *.
  - injection Hi as <-. destruct segs as [|y segs]; [discriminate|].
    injection Hi' as <-. destruct Hc as [Hy _]. now symmetry.
  - eapply IH; eauto.
Qed.

Lemma chained_last (segs : list (CaptionSegment time)) : forall a b s,
  chained a segs b -> last segs = Some s -> seg_end s = b.
Proof.
  induction segs as [|x segs IH]; intros a b s Hc Hl; [discriminate|].
  destruct Hc as [_ Hc]. destruct segs as [|y segs].
  - injection Hl as <-. exact Hc.
  - eapply IH; eauto.
Qed.

Lemma caption_of_snoc g w :
  caption_of (g ++ [w]) = caption_of g ++ " "%char :: w_text w.
Proof.
  unfold caption_of. rewrite map_app, concat_app. simpl. now rewrite app_nil_r.
Qed.

Lemma loop_inv_init : loop_inv t0 (traced_init t0) [].
Proof. split; simpl; try reflexivity; try constructor. Qed.

Lemma loop_inv_body st ws w :
  loop_inv t0 st ws -> loop_inv t0 (traced_body st w) (ws ++ [w]).
Proof.
  intros [Hw Ht Hc Hb Ho Hcl Hch].
  unfold traced_body. destruct (closes _ _) eqn:Hcloses; split; simpl.
  - rewrite map_app, concat_app. simpl. rewrite !app_nil_r.
    now rewrite <- Hw, app_assoc.
  - reflexivity.
  - reflexivity.
  - reflexivity.
  - constructor.
  - apply Forall_app. split; [exact Hcl|]. constructor; [|constructor].
    exists (cur_words st), w. simpl. repeat split.
    + lia.
    + exact Ho.
    + rewrite length_app. simpl.
      replace (Z.of_nat (length (cur_words st) + 1)) with (t_word_count st + 1)%Z by lia.
      exact Hcloses.
    + now rewrite caption_of_snoc, Ht.
  - rewrite map_app. simpl. apply chained_snoc. simpl. split; [exact Hch|reflexivity].
  - now rewrite <- Hw, app_assoc.
  - now rewrite caption_of_snoc, Ht.
  - rewrite length_app. simpl. lia.
  - unfold closes in Hcloses. apply orb_false_iff in Hcloses as [Hlt _]. lia.
  - apply Forall_app. split; [exact Ho|]. constructor; [|constructor].
    unfold closes in Hcloses. apply orb_false_iff in Hcloses as [_ Hp]. exact Hp.
  - exact Hcl.
  - exact Hch.
Qed.

Lemma loop_inv_fold ws : forall st pre,
  loop_inv t0 st pre -> loop_inv t0 (fold_left traced_body ws st) (pre ++ ws).
Proof.
  induction ws as [|w ws IH]; intros st pre H; simpl.
  - now rewrite app_nil_r.
  - replace (pre ++ w :: ws) with ((pre ++ [w]) ++ ws) by now rewrite <- app_assoc.
    apply IH, loop_inv_body, H.
Qed.

Lemma loop_inv_run ws :
  loop_inv t0 (fold_left traced_body ws (traced_init t0)) ws.
Proof. apply (loop_inv_fold ws _ []), loop_inv_init. Qed.

Lemma caption_of_nonempty g : g <> [] -> caption_of g <> [].
Proof. destruct g; [congruence|discriminate]. Qed.

(** The emitted captions: those closed inside the loop, then at most one
    left open and flushed up to the clip's duration. *)
Lemma captions_shape ws d :
  exists closed tail,
    captions_with_words t0 ws d = closed ++ tail /\
    Forall (fun sg => closed_group (fst sg) (snd sg)) closed /\
    (tail = [] \/ exists s g, tail = [(s, g)] /\ open_group d s g) /\
    concat (map snd (closed ++ tail)) = ws /\
    exists e, chained t0 (map fst (closed ++ tail)) e.
Proof.
  assert (Hrun : ws = [] \/
            captions_with_words t0 ws d =
            traced_flush (fold_left traced_body ws (traced_init t0)) d).
  { destruct ws; [now left|now right]. }
  destruct Hrun as [-> | ->].
  { exists [], []. simpl. repeat split; auto. now exists t0. }
  pose proof (loop_inv_run ws) as [Hw Ht Hc Hb Ho Hcl Hch].
  set (st := fold_left traced_body ws (traced_init t0)) in *.
  unfold traced_flush.
  destruct (cur_words st) as [|v cur] eqn:Ecur.
  - rewrite Ht. exists (t_clips st), []. simpl. rewrite app_nil_r in *.
    repeat split; auto. eexists; exact Hch.
  - assert (Hne : exists c rest, t_caption_text st = c :: rest).
    { rewrite Ht. simpl. eauto. }
    destruct Hne as (c & rest & Etxt). rewrite Etxt, <- Etxt.
    eexists (t_clips st), [_]. split; [reflexivity|]. repeat split.
    + exact Hcl.
    + right. eexists _, _. split; [reflexivity|].
      unfold open_group. simpl. split; [discriminate|].
      split; [simpl in Hc; lia|]. rewrite Ht. auto.
    + rewrite map_app, concat_app. simpl. now rewrite app_nil_r.
    + exists d. rewrite map_app. simpl. apply chained_snoc. simpl. auto.
Qed.

Lemma closed_group_facts s g :
  closed_group s g ->
  seg_text s = strip (caption_of g) /\
  (1 <= Z.of_nat (length g) <= max_caption_words)%Z /\
  (forall j v, g !! j = Some v -> S j < length g ->
     closes (Z.of_nat (S j)) (w_text v) = false) /\
  exists v, last g = Some v /\ seg_end s = w_end v /\
            closes (Z.of_nat (length g)) (w_text v) = true.
Proof.
  intros (g0 & w & -> & Hlen & Hopen & Hcl & Hend & Htxt).
  rewrite length_app in *. simpl in *. repeat split; try lia; auto.
  - intros j v Hj Hlt.
    assert (Hj0 : g0 !! j = Some v) by (rewrite lookup_app_l in Hj; [exact Hj|lia]).
    rewrite Forall_forall in Hopen.
    unfold closes. apply orb_false_iff. split.
    + apply Z.leb_gt. lia.
    + apply Hopen. eapply list_elem_of_lookup_2; eauto.
  - exists w. rewrite last_snoc. auto.
Qed.

Lemma open_group_facts d s g :
  open_group d s g ->
  seg_text s = strip (caption_of g) /\
  (1 <= Z.of_nat (length g) < max_caption_words)%Z /\
  (forall j v, g !! j = Some v ->
     closes (Z.of_nat (S j)) (w_text v) = false) /\
  seg_end s = d.
Proof.
  intros (Hne & Hlen & Hopen & Hend & Htxt). repeat split; auto.
  - destruct g; [congruence|simpl; lia].
  - intros j v Hj. pose proof (lookup_lt_Some _ _ _ Hj).
    rewrite Forall_forall in Hopen.
    unfold closes. apply orb_false_iff. split.
    + apply Z.leb_gt. lia.
    + apply Hopen. eapply list_elem_of_lookup_2; eauto.
Qed.

Lemma captions_text ws d :
  Forall (fun sg => snd sg <> [] /\
                    seg_text (fst sg) = strip (caption_of (snd sg)))
         (captions_with_words t0 ws d).
Proof.
  destruct (captions_shape ws d) as (closed & tail & -> & Hcl & Htail & _).
  apply Forall_app. split.
  - eapply Forall_impl; [exact Hcl|]. intros [s g] (g0 & w & -> & _ & _ & _ & _ & Ht).
    simpl. split; [|exact Ht]. destruct g0; discriminate.
  - destruct Htail as [-> | (s & g & -> & Hne & _ & _ & _ & Ht)]; repeat constructor; auto.
Qed.

Lemma caption_of_join g :
  g <> [] -> caption_of g = " "%char :: join_space (map w_text g).
Proof.
  induction g as [|w [|v rest] IH]; intros Hne; [congruence| |].
  - unfold caption_of. simpl. now rewrite app_nil_r.
  - change (caption_of (w :: v :: rest))
      with (" "%char :: w_text w ++ caption_of (v :: rest)).
    rewrite IH by discriminate. reflexivity.
Qed.

Lemma split_caption_of g :
  split (caption_of g) = concat (map split (map w_text g)).
Proof.
  destruct g as [|w rest]; [reflexivity|].
  rewrite caption_of_join by discriminate.
  change (split (" "%char :: ?x)) with (split x).
  apply split_join_space.
Qed.

Lemma split_segments (out : list (CaptionSegment time * list (WordTimestamp time))) :
  Forall (fun sg => seg_text (fst sg) = strip (caption_of (snd sg))) out ->
  concat (map split (map seg_text (map fst out))) =
  concat (map split (map w_text (concat (map snd out)))).
Proof.
  induction 1 as [|[s g] out Hs _ IH]; simpl; [reflexivity|].
  rewrite !map_app, concat_app, <- IH. f_equal.
  simpl in Hs. now rewrite Hs, split_strip, split_caption_of.
Qed.

Lemma loop_body_agree (st : loop_state time) a b :
  w_end a = w_end b -> w_text a = w_text b -> loop_body st a = loop_body st b.
Proof. intros He Ht. unfold loop_body. now rewrite He, Ht. Qed.

(** Where the last segment ends: at the last word's end when that word
    closes its caption, at the clip's duration when it does not. *)
Lemma last_segment_end ws w d :
  exists s g,
    last (captions_with_words t0 (ws ++ [w]) d) = Some (s, g) /\
    last g = Some w /\
    seg_end s =
      if closes (Z.of_nat (length g)) (w_text w) then w_end w else d.
Proof.
  destruct (captions_shape (ws ++ [w]) d)
    as (closed & tail & -> & Hcl & Htail & Hws & _).
  destruct Htail as [-> | (s & g & -> & Hopen)].
  - rewrite app_nil_r in *.
    induction closed as [|x closed _] using rev_ind.
    { simpl in Hws. destruct ws; discriminate. }
    destruct x as [s g]. exists s, g. rewrite last_snoc.
    apply Forall_app in Hcl as [_ Hg]. rewrite Forall_singleton in Hg.
    cbn [fst snd] in Hg.
    destruct Hg as (g0 & v & -> & _ & _ & Hc & He & _).
    rewrite map_app, concat_app in Hws. cbn [map concat snd] in Hws.
    rewrite app_nil_r, app_assoc in Hws.
    apply app_inj_tail in Hws as [_ ->].
    rewrite last_snoc, Hc. auto.
  - exists s, g. rewrite last_snoc.
    pose proof Hopen as (Hne & _).
    apply open_group_facts in Hopen as (_ & _ & Hin & He).
    rewrite map_app, concat_app in Hws. cbn [map concat snd] in Hws.
    rewrite app_nil_r in Hws.
    induction g as [|x g _] using rev_ind; [congruence|].
    rewrite app_assoc in Hws. apply app_inj_tail in Hws as [_ ->].
    rewrite last_snoc. split; [reflexivity|]. split; [reflexivity|].
    assert (Hc : closes (Z.of_nat (length (g ++ [w]))) (w_text w) = false).
    { rewrite length_app. cbn [length].
      replace (length g + 1) with (S (length g)) by lia.
      apply Hin. now rewrite lookup_app_r, Nat.sub_diag by lia. }
    rewrite Hc. exact He.
Qed.

(** C3: for a non-empty word list the emitted segments are back to back:
    the first one starts at [0] and each one ends where the next starts,
    whatever gaps the words have between them. *)
Theorem C3_segments_contiguous ws d :
  ws <> [] ->
  let segs := add_captions_to_video t0 ws d in
  (exists s rest, segs = s :: rest /\ seg_start s = t0) /\
  (forall i s s', segs !! i = Some s -> segs !! (S i) = Some s' ->
     seg_end s = seg_start s').
Proof.
  intros Hne segs. subst segs. rewrite <- captions_erase.
  destruct (captions_shape ws d) as (closed & tail & -> & _ & _ & Hws & e & Hch).
  split.
  - destruct (map fst (closed ++ tail)) as [|s rest] eqn:E.
    + apply map_eq_nil in E. rewrite E in Hws. simpl in Hws. congruence.
    + exists s, rest. split; [reflexivity|]. apply Hch.
  - intros i s s'. eapply chained_adjacent, Hch.
Qed.

(** C4: inside a caption the close test (counter at the maximum, or word
    ending in one of [. ! ?]) fails at every word but the last; at the last
    word it either holds, and the segment ends at that word's end, or fails,
    and then the segment is the final flushed one.  So no segment has more
    than [max_caption_words] words, every non-final segment hits the cap or
    ends on terminal punctuation, and one word ending in terminal
    punctuation gives a one-word segment. *)
Theorem C4_segments_close_on_cap_or_punctuation ws d :
  let out := captions_with_words t0 ws d in
  map fst out = add_captions_to_video t0 ws d /\
  concat (map snd out) = ws /\
  (forall i s g, out !! i = Some (s, g) ->
     seg_text s = strip (caption_of g) /\
     (1 <= Z.of_nat (length g) <= max_caption_words)%Z /\
     (forall j v, g !! j = Some v -> S j < length g ->
        closes (Z.of_nat (S j)) (w_text v) = false) /\
     exists v, last g = Some v /\
       (if closes (Z.of_nat (length g)) (w_text v)
        then seg_end s = w_end v
        else seg_end s = d /\ S i = length out) /\
       (S i < length out ->
        Z.of_nat (length g) = max_caption_words \/ ends_sentence v = true)) /\
  (forall w, ends_sentence w = true ->
     add_captions_to_video t0 [w] d =
     [ {| seg_start := t0; seg_end := w_end w;
          seg_text := strip (" "%char :: w_text w) |} ]).
Proof.
  intros out. subst out. split; [apply captions_erase|].
  destruct (captions_shape ws d) as (closed & tail & -> & Hcl & Htail & Hws & _).
  split; [exact Hws|]. split.
  - intros i s g Hi.
    destruct (decide (i < length closed)) as [Hlt|Hge].
    + rewrite lookup_app_l in Hi by exact Hlt.
      rewrite Forall_forall in Hcl.
      pose proof (Hcl _ (list_elem_of_lookup_2 _ _ _ Hi)) as Hg. simpl in Hg.
      apply closed_group_facts in Hg as (Ht & Hlen & Hin & v & Hv & He & Hc).
      repeat split; try tauto; try lia.
      exists v. rewrite Hc. repeat split; auto.
      intros _. unfold closes in Hc. apply orb_true_iff in Hc as [Hc|Hc]; [|now right].
      left. apply Z.leb_le in Hc. lia.
    + rewrite lookup_app_r in Hi by lia.
      destruct Htail as [-> | (s' & g' & -> & Hopen)]; [discriminate|].
      destruct (i - length closed) as [|k] eqn:Ek; [|discriminate].
      simpl in Hi. injection Hi as -> ->.
      pose proof Hopen as (Hne & _).
      apply open_group_facts in Hopen as (Ht & Hlen & Hin & He).
      repeat split; try tauto; try lia.
      * intros j v Hj _. now apply Hin.
      * destruct (last g) as [v|] eqn:Hv;
          [|apply last_None in Hv; congruence].
        exists v. split; [reflexivity|].
        rewrite last_lookup in Hv. pose proof (Hin _ _ Hv) as Hc.
        replace (S (Init.Nat.pred (length g))) with (length g) in Hc
          by (destruct g; [congruence|reflexivity]).
        rewrite Hc. rewrite length_app. simpl. split; [split; [exact He|lia]|lia].
  - intros w Hw.
    assert (Hc : closes (0 + 1) (w_text w) = true).
    { unfold closes. unfold ends_sentence in Hw. now rewrite Hw, orb_true_r. }
    unfold add_captions_to_video. cbn [fold_left]. unfold loop_body.
    cbn [loop_init word_count caption_text clips start_time].
    rewrite Hc. reflexivity.
Qed.

(** C7: joining the segment texts with single spaces gives, after
    normalising white space to single spaces, the space-joined text of the
    words; the segments split the word list into consecutive non-empty
    groups, each segment's text being the trimmed space-join of its group. *)
Theorem C7_text_roundtrip ws d :
  let segs := add_captions_to_video t0 ws d in
  normalize (join_space (map seg_text segs)) =
  normalize (join_space (map w_text ws)) /\
  exists groups,
    concat groups = ws /\
    Forall2 (fun s g => g <> [] /\
                        seg_text s = strip (join_space (map w_text g)))
            segs groups.
Proof.
  intros segs. subst segs. rewrite <- captions_erase.
  pose proof (captions_text ws d) as Htxt.
  destruct (captions_shape ws d) as (closed & tail & E & _ & _ & Hws & _).
  rewrite <- E in Hws. clear E closed tail.
  split.
  - unfold normalize. f_equal. rewrite !split_join_space.
    rewrite split_segments.
    + now rewrite Hws.
    + eapply Forall_impl; [exact Htxt|]. now intros sg [_ H].
  - exists (map snd (captions_with_words t0 ws d)). split; [exact Hws|].
    clear Hws. induction Htxt as [|[s g] out [Hne Hs] _ IH]; simpl; constructor.
    + split; [exact Hne|]. simpl in *.
      now rewrite Hs, caption_of_join, strip_leading_space.
    + exact IH.
Qed.

(** C10: two word lists of equal length that agree pairwise on text and
    end time give the same segments; the words' start times are never
    looked at. *)
Theorem C10_start_times_irrelevant ws ws' d :
  Forall2 (fun a b => w_end a = w_end b /\ w_text a = w_text b) ws ws' ->
  add_captions_to_video t0 ws d = add_captions_to_video t0 ws' d.
Proof.
  intros H. unfold add_captions_to_video.
  assert (Hfold : forall st,
            fold_left loop_body ws st = fold_left loop_body ws' st).
  { induction H as [|a b ws ws' [He Ht] _ IH]; intros st; simpl; [reflexivity|].
    rewrite (loop_body_agree st a b He Ht). apply IH. }
  destruct H; [reflexivity|]. now rewrite Hfold.
Qed.

End SegmenterFacts.

(** *** The segmentation on concrete transcripts (times in seconds) *)

Section SegmenterExamples.
Import Text Segmenter.
Local Open Scope Q_scope.

Example nine_words_segments :
  add_captions_to_video 0%Q nine_words 12 =
  [seg 0 8 "one two three four five six seven eight"; seg 8 12 "nine"].
Proof. reflexivity. Qed.

Example empty_transcript_segments :
  add_captions_to_video 0%Q [] 12 = [].
Proof. reflexivity. Qed.

Example open_caption_runs_to_duration :
  add_captions_to_video 0%Q [word 0 0.4 "Hi"; word 0.5 0.9 "there"] 5 =
  [seg 0 5 "Hi there"].
Proof. reflexivity. Qed.

(** C1: on the three words "Hi", "there", "friend." of a clip of 5
    seconds the loop closes the only caption at the end of "friend."
    (1.5 s); [caption_text] is then empty and nothing extends it to 5. *)
Theorem C1_last_word_closing_ends_at_word_end :
  add_captions_to_video 0%Q hi_there_friend 5 = [seg 0 1.5 "Hi there friend."] /\
  (forall s, last (add_captions_to_video 0%Q hi_there_friend 5) = Some s ->
             seg_end s <> 5%Q).
Proof.
  split; [reflexivity|]. intros s Hs. vm_compute in Hs. injection Hs as <-.
  discriminate.
Qed.

Lemma C3_segments_contiguous_witness :
  let segs := add_captions_to_video 0%Q nine_words 12 in
  (exists s rest, segs = s :: rest /\ seg_start s = 0%Q) /\
  (forall i s s', segs !! i = Some s -> segs !! (S i) = Some s' ->
     seg_end s = seg_start s').
Proof. apply (C3_segments_contiguous 0%Q nine_words 12). discriminate. Defined.

Lemma C10_start_times_irrelevant_witness :
  add_captions_to_video 0%Q
    [word 0 0.4 "Hi"; word 0.5 0.9 "there"; word 1 1.5 "friend."] 5 =
  add_captions_to_video 0%Q
    [word 0.1 0.4 "Hi"; word 0.7 0.9 "there"; word 0.2 1.5 "friend."] 5.
Proof.
  apply (C10_start_times_irrelevant 0%Q). repeat constructor.
Defined.

End SegmenterExamples.

(** ** Rounding and floating-point arithmetic *)

Section TrimFacts.
Import Trim.
Local Open Scope Q_scope.

Lemma round_half_even_comp x y : x == y -> round_half_even x = round_half_even y.
Proof.
  intros H. unfold round_half_even.
  rewrite (Qfloor_comp _ _ H).
  assert (Hc : Qcompare (x - inject_Z (Qfloor y)) (1 # 2) = Qcompare (y - inject_Z (Qfloor y)) (1 # 2)).
  { apply Qcompare_comp; [now rewrite H|reflexivity]. }
  now rewrite Hc.
Qed.

Lemma round_half_even_Z (m : Z) : round_half_even (inject_Z m) = m.
Proof.
  unfold round_half_even. rewrite Qfloor_Z.
  assert (Hc : Qcompare (inject_Z m - inject_Z m) (1 # 2) = Lt).
  { rewrite <- Qlt_alt. lra. }
  now rewrite Hc.
Qed.

Lemma round_half_even_near x :
  Qabs (inject_Z (round_half_even x) - x) <= 1 # 2.
Proof.
  unfold round_half_even.
  pose proof (Qfloor_le x) as Hlo. pose proof (Qlt_floor x) as Hhi.
  rewrite inject_Z_plus in Hhi. change (inject_Z 1) with 1 in Hhi.
  set (f := Qfloor x) in *.
  assert (Hup : Qabs (inject_Z (f + 1) - x) <= 1 # 2 <-> 1 # 2 <= x - inject_Z f).
  { rewrite inject_Z_plus. change (inject_Z 1) with 1.
    rewrite Qabs_pos by lra. split; intros; lra. }
  assert (Hdn : Qabs (inject_Z f - x) <= 1 # 2 <-> x - inject_Z f <= 1 # 2).
  { rewrite Qabs_neg by lra. split; intros; lra. }
  destruct (Qcompare (x - inject_Z f) (1 # 2)) eqn:E.
  - apply Qeq_alt in E. destruct (Z.even f); [apply Hdn|apply Hup]; lra.
  - apply Qlt_alt in E. apply Hdn. lra.
  - apply Qgt_alt in E. apply Hup. lra.
Qed.

(** The only whole number nearer than one half. *)
Lemma round_half_even_unique x (n : Z) :
  Qabs (x - inject_Z n) < 1 # 2 -> round_half_even x = n.
Proof.
  intros Hx. pose proof (round_half_even_near x) as Hn.
  apply Qabs_Qle_condition in Hn as [Ha Hb].
  apply Qabs_Qlt_condition in Hx as [Hc Hd].
  set (r := round_half_even x) in *.
  assert (H1 : inject_Z r < inject_Z n + 1) by lra.
  assert (H2 : inject_Z n < inject_Z r + 1) by lra.
  change 1 with (inject_Z 1) in H1, H2.
  rewrite <- inject_Z_plus, <- Zlt_Qlt in H1, H2. lia.
Qed.

Lemma round_half_even_nonneg x : 0 <= x -> (0 <= round_half_even x)%Z.
Proof.
  intros Hx. pose proof (round_half_even_near x) as Hn.
  apply Qabs_Qle_condition in Hn as [Ha Hb].
  set (r := round_half_even x) in *.
  assert (H1 : inject_Z (-1) < inject_Z r).
  { change (inject_Z (-1)) with (-(1)). lra. }
  rewrite <- Zlt_Qlt in H1. lia.
Qed.

Lemma round2_near x : Qabs (round2 x - x) <= 1 # 200.
Proof.
  unfold round2. pose proof (round_half_even_near (x * 100)) as Hn.
  set (r := inject_Z (round_half_even (x * 100))) in *.
  apply Qabs_Qle_condition in Hn as [Ha Hb].
  assert (E : r / 100 == r * (1 # 100)) by field.
  rewrite E. apply Qabs_Qle_condition. split; lra.
Qed.

End TrimFacts.

Section Binary64Facts.
Import Trim Binary64.
Local Open Scope Q_scope.

Lemma pow2_pos (z : Z) : 0 < 2 ^ z.
Proof. now apply Qpower_0_lt. Qed.

Lemma pow2_Z (z : Z) : (0 <= z)%Z -> 2 ^ z == inject_Z (2 ^ z).
Proof. intros Hz. now rewrite Zpower_Qpower. Qed.

Lemma ulp_pos x : 0 < ulp x.
Proof. apply pow2_pos. Qed.

Lemma Qabs_make (n : Z) (d : positive) : Qabs (n # d) = (Z.abs n # d).
Proof. reflexivity. Qed.

(** A fraction of two whole numbers between powers of two. *)
Lemma frac_lower (n a b : Z) (d : positive) :
  (0 <= a)%Z -> (0 <= b)%Z -> (2 ^ a <= n)%Z -> (Zpos d < 2 ^ b)%Z ->
  2 ^ (a - b) <= n # d.
Proof.
  intros Ha Hb Hn Hd.
  rewrite Qpower_minus by discriminate. rewrite !pow2_Z by assumption.
  rewrite (Qmake_Qdiv n d).
  assert (H1 : 0 < inject_Z (2 ^ b)).
  { rewrite <- pow2_Z by assumption. apply pow2_pos. }
  assert (H2 : 0 < inject_Z (Zpos d)) by reflexivity.
  assert (H3 : 0 < inject_Z (2 ^ a)).
  { rewrite <- pow2_Z by assumption. apply pow2_pos. }
  rewrite Zle_Qle in Hn. rewrite Zlt_Qlt in Hd.
  apply Qle_shift_div_l; [exact H2|].
  apply Qle_trans with (inject_Z (2 ^ a) / inject_Z (2 ^ b) * inject_Z (2 ^ b)).
  - apply Qmult_le_l; [|apply Qlt_le_weak, Hd].
    apply Qlt_shift_div_l; [exact H1|]. lra.
  - assert (E : inject_Z (2 ^ a) / inject_Z (2 ^ b) * inject_Z (2 ^ b) == inject_Z (2 ^ a)).
    { field. lra. }
    rewrite E. exact Hn.
Qed.

Lemma frac_upper (n a b : Z) (d : positive) :
  (0 <= a)%Z -> (0 <= b)%Z -> (n < 2 ^ a)%Z -> (2 ^ b <= Zpos d)%Z ->
  n # d < 2 ^ (a - b).
Proof.
  intros Ha Hb Hn Hd.
  rewrite Qpower_minus by discriminate. rewrite !pow2_Z by assumption.
  rewrite (Qmake_Qdiv n d).
  assert (H1 : 0 < inject_Z (2 ^ b)).
  { rewrite <- pow2_Z by assumption. apply pow2_pos. }
  assert (H2 : 0 < inject_Z (Zpos d)) by reflexivity.
  assert (H3 : 0 < inject_Z (2 ^ a)).
  { rewrite <- pow2_Z by assumption. apply pow2_pos. }
  rewrite Zlt_Qlt in Hn. rewrite Zle_Qle in Hd.
  apply Qlt_shift_div_r; [exact H2|].
  apply Qlt_le_trans with (inject_Z (2 ^ a) / inject_Z (2 ^ b) * inject_Z (2 ^ b)).
  - assert (E : inject_Z (2 ^ a) / inject_Z (2 ^ b) * inject_Z (2 ^ b) == inject_Z (2 ^ a)).
    { field. lra. }
    rewrite E. exact Hn.
  - apply Qmult_le_l; [|exact Hd].
    apply Qlt_shift_div_l; [exact H1|]. lra.
Qed.

Lemma Qabs_num_pos x : ~ x == 0 -> (0 < Z.abs (Qnum x))%Z.
Proof.
  intros Hx. destruct x as [n d]. cbn [Qnum].
  assert (n <> 0%Z).
  { intros ->. apply Hx. reflexivity. }
  lia.
Qed.

(** [exponent] is the binary order of magnitude. *)
Lemma exponent_le x : ~ x == 0 -> 2 ^ exponent x <= Qabs x.
Proof.
  intros Hx. unfold exponent.
  set (e := (Z.log2 (Z.abs (Qnum x)) - Z.log2 (Zpos (Qden x)))%Z).
  destruct (Qle_bool (2 ^ e) (Qabs x)) eqn:E.
  - now apply Qle_bool_iff.
  - pose proof (Qabs_num_pos x Hx) as Hn.
    destruct x as [n d]. cbn [Qnum Qden] in *. rewrite Qabs_make.
    replace (e - 1)%Z with (Z.log2 (Z.abs n) - (Z.log2 (Zpos d) + 1))%Z by (subst e; lia).
    apply frac_lower.
    + apply Z.log2_nonneg.
    + pose proof (Z.log2_nonneg (Zpos d)). lia.
    + now apply Z.log2_spec.
    + replace (Z.log2 (Zpos d) + 1)%Z with (Z.succ (Z.log2 (Zpos d))) by lia.
      apply Z.log2_spec. lia.
Qed.

Lemma exponent_lt x : ~ x == 0 -> Qabs x < 2 ^ (exponent x + 1).
Proof.
  intros Hx. unfold exponent.
  set (e := (Z.log2 (Z.abs (Qnum x)) - Z.log2 (Zpos (Qden x)))%Z).
  destruct (Qle_bool (2 ^ e) (Qabs x)) eqn:E.
  - pose proof (Qabs_num_pos x Hx) as Hn.
    destruct x as [n d]. cbn [Qnum Qden] in *. rewrite Qabs_make.
    replace (e + 1)%Z with (Z.log2 (Z.abs n) + 1 - Z.log2 (Zpos d))%Z by (subst e; lia).
    apply frac_upper.
    + pose proof (Z.log2_nonneg (Z.abs n)). lia.
    + apply Z.log2_nonneg.
    + replace (Z.log2 (Z.abs n) + 1)%Z with (Z.succ (Z.log2 (Z.abs n))) by lia.
      now apply Z.log2_spec.
    + apply Z.log2_spec. lia.
  - replace (e - 1 + 1)%Z with e by lia.
    apply Qnot_le_lt. intros Hle. apply Qle_bool_iff in Hle. congruence.
Qed.

Lemma rnd_half_ulp x : Qabs (rnd x - x) <= ulp x * (1 # 2).
Proof.
  unfold rnd. pose proof (ulp_pos x) as Hu.
  pose proof (round_half_even_near (x / ulp x)) as Hn.
  set (r := inject_Z (round_half_even (x / ulp x))) in *.
  set (g := ulp x) in *.
  assert (E : r * g - x == (r - x / g) * g) by (field; lra).
  rewrite E, Qabs_Qmult, (Qabs_pos g) by lra.
  rewrite (Qmult_comm g). apply Qmult_le_compat_r; lra.
Qed.

Lemma rnd_0 x : x == 0 -> rnd x == 0.
Proof.
  intros Hx. unfold rnd. pose proof (ulp_pos x) as Hu.
  assert (E : x / ulp x == inject_Z 0).
  { revert Hu. generalize (ulp x). intros g Hg. rewrite Hx.
    change (inject_Z 0) with 0. field. lra. }
  rewrite (round_half_even_comp _ _ E), round_half_even_Z.
  change (inject_Z 0) with 0. lra.
Qed.

Lemma rnd_nonneg x : 0 <= x -> 0 <= rnd x.
Proof.
  intros Hx. unfold rnd. pose proof (ulp_pos x) as Hu.
  apply Qmult_le_0_compat; [|lra].
  change 0 with (inject_Z 0). rewrite <- Zle_Qle.
  apply round_half_even_nonneg. apply Qle_shift_div_l; lra.
Qed.

(** Half the distance between the floats around [x] is at most one part
    in [2^53] of [x], or [2^-1075] where the floats are subnormal. *)
Lemma half_ulp_le x :
  ~ x == 0 ->
  ulp x * (1 # 2) <= Qabs x * 2 ^ (-53) \/ ulp x * (1 # 2) == 2 ^ (-1075).
Proof.
  intros Hx. unfold ulp.
  destruct (Z.max_spec (exponent x - 52) (-1074)) as [[_ ->] | [_ ->]].
  - right. reflexivity.
  - left. pose proof (exponent_le x Hx) as He.
    replace (exponent x - 52)%Z with (exponent x + (-52))%Z by lia.
    rewrite Qpower_plus by discriminate.
    change (2 ^ (-52)) with (1 # 4503599627370496).
    change (2 ^ (-53)) with (1 # 9007199254740992).
    pose proof (pow2_pos (exponent x)). lra.
Qed.

Lemma rnd_error x :
  Qabs (rnd x - x) <= Qabs x * (1 # 9007199254740992) + 2 ^ (-1075).
Proof.
  destruct (Qeq_dec x 0) as [Hx | Hx].
  - assert (E : rnd x - x == 0) by (rewrite (rnd_0 x Hx), Hx; lra).
    rewrite E. change (Qabs 0) with 0.
    pose proof (Qabs_nonneg x). pose proof (pow2_pos (-1075)). lra.
  - pose proof (rnd_half_ulp x) as Hh. pose proof (Qabs_nonneg x).
    pose proof (pow2_pos (-1075)).
    change (1 # 9007199254740992) with (2 ^ (-53)).
    destruct (half_ulp_le x Hx) as [Hl | Hl].
    + assert (0 <= Qabs x * 2 ^ (-53)).
      { apply Qmult_le_0_compat; [assumption|]. apply Qlt_le_weak, pow2_pos. }
      lra.
    + rewrite Hl in Hh.
      assert (0 <= Qabs x * 2 ^ (-53)).
      { apply Qmult_le_0_compat; [assumption|]. apply Qlt_le_weak, pow2_pos. }
      lra.
Qed.

Lemma rnd_error_nonneg x :
  0 <= x ->
  x - (x * (1 # 9007199254740992) + 2 ^ (-1075)) <= rnd x /\
  rnd x <= x + (x * (1 # 9007199254740992) + 2 ^ (-1075)).
Proof.
  intros Hx. pose proof (rnd_error x) as He. rewrite (Qabs_pos x Hx) in He.
  apply Qabs_Qle_condition in He as [Ha Hb]. split; lra.
Qed.

(** In the normal range the error is relative. *)
Lemma rnd_error_normal x :
  2 ^ (-1022) <= Qabs x -> Qabs (rnd x - x) <= Qabs x * (1 # 9007199254740992).
Proof.
  intros Hn.
  assert (Hx : ~ x == 0).
  { intros Hx. rewrite Hx in Hn. change (Qabs 0) with 0 in Hn.
    pose proof (pow2_pos (-1022)). lra. }
  pose proof (rnd_half_ulp x) as Hh.
  pose proof (exponent_le x Hx) as Hlo. pose proof (exponent_lt x Hx) as Hhi.
  assert (He : (-1022 < exponent x + 1)%Z).
  { apply (Qpower_lt_compat_l_inv 2); [|reflexivity].
    eapply Qle_lt_trans; [exact Hn|exact Hhi]. }
  unfold ulp in Hh. rewrite Z.max_l in Hh by lia.
  replace (exponent x - 52)%Z with (exponent x + (-52))%Z in Hh by lia.
  rewrite Qpower_plus in Hh by discriminate.
  change (2 ^ (-52)) with (1 # 4503599627370496) in Hh.
  pose proof (pow2_pos (exponent x)). lra.
Qed.

Lemma exponent_unique x (e : Z) :
  2 ^ e <= Qabs x -> Qabs x < 2 ^ (e + 1) -> exponent x = e.
Proof.
  intros Hlo Hhi.
  assert (Hx : ~ x == 0).
  { intros Hx. rewrite Hx in Hlo. change (Qabs 0) with 0 in Hlo.
    pose proof (pow2_pos e). lra. }
  pose proof (exponent_le x Hx) as Hlo'. pose proof (exponent_lt x Hx) as Hhi'.
  assert (H1 : (exponent x < e + 1)%Z).
  { apply (Qpower_lt_compat_l_inv 2); [|reflexivity].
    eapply Qle_lt_trans; [exact Hlo'|exact Hhi]. }
  assert (H2 : (e < exponent x + 1)%Z).
  { apply (Qpower_lt_compat_l_inv 2); [|reflexivity].
    eapply Qle_lt_trans; [exact Hlo|exact Hhi']. }
  lia.
Qed.

Lemma exponent_comp x y : x == y -> ~ x == 0 -> exponent y = exponent x.
Proof.
  intros Hxy Hx. apply exponent_unique; rewrite <- Hxy.
  - now apply exponent_le.
  - now apply exponent_lt.
Qed.

(** [rnd] depends on the number, not on the fraction that writes it. *)
Lemma rnd_comp x y : x == y -> rnd x == rnd y.
Proof.
  intros Hxy. destruct (Qeq_dec x 0) as [Hx | Hx].
  - rewrite (rnd_0 x Hx), (rnd_0 y); [reflexivity|]. now rewrite <- Hxy.
  - unfold rnd, ulp. rewrite (exponent_comp x y Hxy Hx).
    set (g := 2 ^ Z.max (exponent x - 52) (-1074)).
    assert (Hg : 0 < g) by apply pow2_pos.
    assert (E : x / g == y / g) by now rewrite Hxy.
    now rewrite (round_half_even_comp _ _ E).
Qed.

(** A multiple of a power of two that is at least the distance between
    the floats around it is a float. *)
Lemma rnd_exact x (m z : Z) :
  x == inject_Z m * 2 ^ z -> (Z.max (exponent x - 52) (-1074) <= z)%Z ->
  rnd x == x.
Proof.
  intros Hx Hz. unfold rnd, ulp.
  set (g := Z.max (exponent x - 52) (-1074)) in *.
  assert (Hg : 0 < 2 ^ g) by apply pow2_pos.
  assert (E : x / 2 ^ g == inject_Z (m * 2 ^ (z - g))).
  { rewrite inject_Z_mult, <- pow2_Z by lia.
    rewrite Qpower_minus by discriminate.
    revert Hg. generalize (2 ^ g). intros G HG. rewrite Hx. field. lra. }
  rewrite (round_half_even_comp _ _ E), round_half_even_Z.
  rewrite inject_Z_mult, <- pow2_Z by lia.
  rewrite Qpower_minus by discriminate.
  revert Hg. generalize (2 ^ g). intros G HG. rewrite Hx. field. lra.
Qed.

(** Whole numbers below [2^53] are floats. *)
Lemma rnd_Z x (n : Z) :
  x == inject_Z n -> (Z.abs n < 2 ^ 53)%Z -> rnd x == inject_Z n.
Proof.
  intros Hx Hn. destruct (Z.eq_dec n 0%Z) as [-> | Hn0].
  - now apply rnd_0.
  - assert (Hx0 : ~ x == 0).
    { rewrite Hx. change 0 with (inject_Z 0). rewrite inject_Z_injective. exact Hn0. }
    rewrite <- Hx. apply (rnd_exact x n 0).
    + rewrite Hx. change (2 ^ 0) with 1. lra.
    + pose proof (exponent_le x Hx0) as Hlo.
      assert (Habs : Qabs x == inject_Z (Z.abs n)).
      { rewrite Hx. destruct n; reflexivity. }
      assert (He : (exponent x < 53)%Z).
      { apply (Qpower_lt_compat_l_inv 2); [|reflexivity].
        eapply Qle_lt_trans; [exact Hlo|]. rewrite Habs.
        rewrite (pow2_Z 53) by lia. now rewrite <- Zlt_Qlt. }
      lia.
Qed.

(** What stays below [2^1000] gives a finite float. *)
Lemma fl_finite x : Qabs x <= 2 ^ 1000 -> fl x = Finite (rnd x).
Proof.
  intros Hx. unfold fl.
  assert (Hlt : Qabs (rnd x) < 2 ^ 1024).
  { pose proof (rnd_error x) as He.
    pose proof (Qabs_triangle (rnd x - x) x) as Ht.
    assert (E : rnd x - x + x == rnd x) by ring.
    rewrite E in Ht.
    assert (H1 : 2 ^ (-1075) <= 1).
    { apply Qle_bool_iff. vm_compute. reflexivity. }
    assert (H2 : 2 ^ 1000 * 2 + 1 < 2 ^ 1024).
    { rewrite Qlt_alt. vm_compute. reflexivity. }
    pose proof (Qabs_nonneg x).
    set (a := Qabs x) in *. set (b := Qabs (rnd x)) in *.
    set (c := Qabs (rnd x - x)) in *.
    set (M := 2 ^ 1000) in *. set (N := 2 ^ 1024) in *. set (e := 2 ^ (-1075)) in *.
    lra. }
  destruct (Qle_bool (2 ^ 1024) (Qabs (rnd x))) eqn:E; [|reflexivity].
  apply Qle_bool_iff in E. lra.
Qed.

End Binary64Facts.

(** ** Trim before writing *)

Section EndTimeFacts.
Import Trim Binary64 EndTime.
Local Open Scope Q_scope.

Lemma eta_small : 0 < 2 ^ (-1075) /\ 2 ^ (-1075) <= 1 # 1152921504606846976.
Proof.
  split; [apply pow2_pos|]. apply Qle_bool_iff. vm_compute. reflexivity.
Qed.

Lemma fl_small x : 0 <= x -> x <= 1000000000 -> fl x = Finite (rnd x).
Proof.
  intros H0 H1. apply fl_finite. rewrite Qabs_pos by exact H0.
  apply Qle_trans with 1000000000; [exact H1|].
  apply Qle_bool_iff. vm_compute. reflexivity.
Qed.

Lemma Qfloor_nonneg x : 0 <= x -> (0 <= Qfloor x)%Z.
Proof.
  intros Hx. change 0%Z with (Qfloor 0). now apply Qfloor_resp_le.
Qed.

Example end_time_10s_at_30fps :
  exists t, end_time 10 30 = Finite t /\ t == float_of 9.9.
Proof. eexists. split; [vm_compute; reflexivity|]. vm_compute. reflexivity. Qed.

Example end_time_half_second_at_24fps :
  exists t, end_time (float_of 0.5) 24 = Finite t /\ t == float_of 0.48.
Proof. eexists. split; [vm_compute; reflexivity|]. vm_compute. reflexivity. Qed.

(** The float written [1.2] is below 1.2, but one hundred times it rounds
    to 120: five steps of 0.24 s are counted and nothing is cut. *)
Example end_time_1_2s_at_24fps :
  exists t, end_time (float_of 1.2) 24 = Finite t /\ t == float_of 1.2 /\
            float_of 1.2 < 5 * 24 / 100 /\ rnd (float_of 1.2 * 100) == 120.
Proof.
  eexists. split; [vm_compute; reflexivity|].
  split; [vm_compute; reflexivity|]. split; [|vm_compute]; reflexivity.
Qed.

(** One hundred times the float written [4.56] stays below 456: eighteen
    steps are counted, not nineteen. *)
Example end_time_4_56s_at_24fps :
  exists t, end_time (float_of 4.56) 24 = Finite t /\ t == float_of 4.32 /\
            rnd (float_of 4.56 * 100) < 456.
Proof.
  eexists. split; [vm_compute; reflexivity|].
  split; [vm_compute|]; reflexivity.
Qed.

Example end_time_at_0fps : end_time 10 0 = ZeroDivisionError.
Proof. vm_compute. reflexivity. Qed.




End EndTimeFacts.

(** ** Saving the output *)

Section RetryFacts.
Import Retry.

Implicit Type writer : nat -> write_result.

Lemma failed_attempts_S from k :
  failed_attempts from (S k) =
  [Write from; LogWarning (from + 1); Sleep 1] ++ failed_attempts (S from) k.
Proof. reflexivity. Qed.

(** [k] failing iterations, then the rest of the loop. *)
Lemma retry_loop_failures writer k : forall from n,
  (forall i, from <= i < from + k -> writer i = WriteIOError) ->
  retry_loop writer (seq from (k + n)) =
  (failed_attempts from k ++ fst (retry_loop writer (seq (from + k) n)),
   snd (retry_loop writer (seq (from + k) n))).
Proof.
  induction k as [|k IH]; intros from n Hfail.
  - simpl. rewrite Nat.add_0_r. now destruct (retry_loop _ _).
  - change (seq from (S k + n)) with (from :: seq (S from) (k + n)).
    cbn [retry_loop]. rewrite (Hfail from) by lia.
    rewrite (IH (S from) n) by (intros i Hi; apply Hfail; lia).
    replace (S from + k) with (from + S k) by lia.
    rewrite failed_attempts_S. reflexivity.
Qed.

Lemma count_app f t1 t2 : count f (t1 ++ t2) = count f t1 + count f t2.
Proof. unfold count. now rewrite filter_app, length_app. Qed.

Lemma count_failed_attempts from k :
  count is_write (failed_attempts from k) = k /\
  count is_warning (failed_attempts from k) = k /\
  count is_error (failed_attempts from k) = 0.
Proof.
  revert from. induction k as [|k IH]; intros from; [now compute|].
  rewrite failed_attempts_S, !count_app.
  destruct (IH (S from)) as (-> & -> & ->). now compute.
Qed.

Lemma reported_app_closing trace : reported (trace ++ closing) = Some true.
Proof.
  unfold reported. rewrite omap_app. simpl. apply last_snoc.
Qed.

Lemma reported_failed_attempts from k : reported (failed_attempts from k) = None.
Proof.
  unfold reported. revert from. induction k as [|k IH]; intros from; [reflexivity|].
  rewrite failed_attempts_S. simpl. apply IH.
Qed.

Lemma retry_loop_writes writer positions :
  count is_write (fst (retry_loop writer positions)) <= length positions.
Proof.
  induction positions as [|pos rest IH]; simpl; [now compute|].
  destruct (writer pos); try (compute; lia).
  destruct (retry_loop writer rest) as [trace how]. simpl in *.
  change (count is_write (Write pos :: LogWarning (pos + 1) :: Sleep 1 :: trace))
    with (S (count is_write trace)). lia.
Qed.

(** The loop after [k < 5] failing iterations, seen from iteration [k]. *)
Lemma retry_loop_after writer k :
  k < 5 ->
  (forall i, i < k -> writer i = WriteIOError) ->
  retry_loop writer (seq 0 5) =
  (failed_attempts 0 k ++ fst (retry_loop writer (seq k (5 - k))),
   snd (retry_loop writer (seq k (5 - k)))).
Proof.
  intros Hk Hfail.
  replace 5 with (k + (5 - k)) at 1 by lia.
  apply (retry_loop_failures writer k 0). intros i Hi. apply Hfail. lia.
Qed.

Lemma retry_loop_exhausted writer :
  (forall i, i < 5 -> writer i = WriteIOError) ->
  retry_loop writer (seq 0 5) = (failed_attempts 0 5 ++ [LogError], Exhausted).
Proof.
  intros Hfail.
  apply (retry_loop_failures writer 5 0 0). intros i Hi. apply Hfail. lia.
Qed.

(** C5, as stated, fails: after five [IOError]s the worker returns and sets
    its completion flag to [True], the value a job saved on the first try
    sets; the scheduler is shown no failure. *)
Lemma C5_exhausted_retries_reported_like_success :
  save_output (fun _ => WriteIOError) =
    (failed_attempts 0 5 ++ [LogError] ++ closing, Returned) /\
  reported (fst (save_output (fun _ => WriteIOError))) = Some true /\
  reported (fst (save_output (fun _ => WriteIOError))) =
  reported (fst (save_output (fun _ => WriteOk))).
Proof. repeat split. Qed.

(** C5, amended: the write is attempted at most 5 times; every [IOError]
    is followed by a warning and a sleep of 1 second; [k < 5] failures and
    then a success give exactly [k] warnings, [k + 1] attempts, no error
    and a worker that returns with its flag set to [True]; five failures
    give five attempts, five warnings, one logged error, no further attempt,
    and a worker that returns with its flag set to [True] as well; any other
    exception ends the worker at once, with no retry, no warning for it and
    the flag never set. *)
Theorem C5_write_retry_policy writer :
  let trace := fst (save_output writer) in
  let how := snd (save_output writer) in
  count is_write trace <= 5 /\
  (forall k, k < 5 ->
     (forall i, i < k -> writer i = WriteIOError) -> writer k = WriteOk ->
     trace = failed_attempts 0 k ++ [Write k] ++ closing /\
     how = Returned /\
     count is_write trace = k + 1 /\
     count is_warning trace = k /\
     count is_error trace = 0 /\
     reported trace = Some true) /\
  ((forall i, i < 5 -> writer i = WriteIOError) ->
     trace = failed_attempts 0 5 ++ [LogError] ++ closing /\
     how = Returned /\
     count is_write trace = 5 /\
     count is_warning trace = 5 /\
     count is_error trace = 1 /\
     reported trace = Some true) /\
  (forall k, k < 5 ->
     (forall i, i < k -> writer i = WriteIOError) -> writer k = WriteOtherError ->
     trace = failed_attempts 0 k ++ [Write k] /\
     how = Died /\
     count is_write trace = k + 1 /\
     count is_warning trace = k /\
     reported trace = None).
Proof.
  intros trace how. subst trace how. unfold save_output.
  split; [|split; [|split]].
  - pose proof (retry_loop_writes writer (seq 0 5)) as H.
    destruct (retry_loop writer (seq 0 5)) as [trace how]. simpl in *.
    destruct how; simpl; rewrite ?count_app; change (count is_write closing) with 0; lia.
  - intros k Hk Hfail Hok. rewrite (retry_loop_after writer k Hk Hfail).
    destruct (5 - k) as [|m] eqn:E; [lia|]. cbn [seq retry_loop]. rewrite Hok.
    cbn [fst snd]. rewrite <- app_assoc.
    destruct (count_failed_attempts 0 k) as (Hw & Hwarn & Herr).
    repeat split.
    + rewrite !count_app, Hw. reflexivity.
    + rewrite !count_app, Hwarn. now compute.
    + rewrite !count_app, Herr. now compute.
    + rewrite app_assoc. apply reported_app_closing.
  - intros Hfail. rewrite (retry_loop_exhausted writer Hfail). repeat split.
  - intros k Hk Hfail Hother. rewrite (retry_loop_after writer k Hk Hfail).
    destruct (5 - k) as [|m] eqn:E; [lia|]. cbn [seq retry_loop]. rewrite Hother.
    cbn [fst snd].
    destruct (count_failed_attempts 0 k) as (Hw & Hwarn & Herr).
    repeat split.
    + rewrite !count_app, Hw. reflexivity.
    + rewrite !count_app, Hwarn. now compute.
    + unfold reported. rewrite omap_app. simpl. rewrite app_nil_r.
      apply reported_failed_attempts.
Qed.

Example save_after_two_failures :
  save_output (fun pos => if pos <? 2 then WriteIOError else WriteOk) =
  ([Write 0; LogWarning 1; Sleep 1; Write 1; LogWarning 2; Sleep 1; Write 2;
    CloseInput; CloseOutput; LogRuntime; SetStatus true], Returned).
Proof. reflexivity. Qed.

Example save_with_codec_error :
  save_output (fun pos => if pos <? 1 then WriteIOError else WriteOtherError) =
  ([Write 0; LogWarning 1; Sleep 1; Write 1], Died).
Proof. reflexivity. Qed.

End RetryFacts.

(** ** The scheduler *)

Section SchedulerFacts.
Import Scheduler.

Implicit Types (s : state) (W : gmap Z worker_phase) (P : gmap Z string).
Implicit Types (D : gmap Z bool) (items rest : list (Z * bool)).

Lemma size_same_dom {A B} (m1 : gmap Z A) (m2 : gmap Z B) :
  dom m1 = dom m2 -> size m1 = size m2.
Proof.
  intros H. rewrite <- (size_dom (D := gset Z) m1), <- (size_dom (D := gset Z) m2).
  now rewrite H.
Qed.

Lemma dom_delete_of_insert {A B} (m1 : gmap Z A) (m2 : gmap Z B) pid :
  dom m1 = {[pid]} ∪ dom m2 -> pid ∉ dom m2 -> dom (delete pid m1) = dom m2.
Proof. intros H Hn. rewrite dom_delete_L, H. set_solver. Qed.

Lemma dom_insert_of_delete {A B} (m1 : gmap Z A) (m2 : gmap Z B) pid :
  dom m1 = dom m2 -> pid ∈ dom m1 -> dom m2 = {[pid]} ∪ dom (delete pid m1).
Proof.
  intros H Hin. rewrite dom_delete_L, <- H. apply set_eq. intros x.
  destruct (decide (x = pid)); set_solver.
Qed.

Lemma items_ok_tail D pid b rest :
  items_ok D ((pid, b) :: rest) -> (pid ∉ rest.*1) /\ items_ok D rest.
Proof.
  intros [Hnd Hok]. simpl in Hnd. apply NoDup_cons in Hnd as [Hpid Hnd].
  split; [exact Hpid|]. split; [exact Hnd|].
  intros p Hp. apply Hok. now right.
Qed.

Lemma items_ok_map_to_list D : items_ok D (map_to_list D).
Proof.
  split; [apply NoDup_fst_map_to_list|].
  intros pid Hp. now apply elem_of_map_to_list in Hp.
Qed.

Lemma items_ok_not_in D D' pid rest :
  items_ok D rest -> pid ∉ rest.*1 ->
  (forall p, p <> pid -> D' !! p = D !! p) ->
  items_ok D' rest.
Proof.
  intros [Hnd Hok] Hpid Hsame. split; [exact Hnd|].
  intros p Hp. rewrite Hsame; [now apply Hok|].
  intros ->. apply Hpid. apply list_elem_of_fmap. now exists (pid, true).
Qed.

Lemma inv_init C names : inv C (length names) (init names).
Proof.
  split; simpl.
  - rewrite map_size_empty. lia.
  - rewrite map_size_empty. lia.
  - rewrite map_size_empty. lia.
  - lia.
  - intros pid b H. now rewrite lookup_empty in H.
  - constructor.
  - unfold line_inv. simpl. now rewrite !dom_empty_L, map_size_empty.
Qed.

Lemma size_delete_present {A} (m : gmap Z A) pid x :
  m !! pid = Some x -> size m = S (size (delete pid m)).
Proof.
  intros H. rewrite map_size_delete_Some by eauto.
  pose proof (map_size_ne_0_lookup_2 m pid (ltac:(eauto))). lia.
Qed.

(** A process seen complete by the [for] statement has finished. *)
Lemma seen_complete_finished C Q s pid rest :
  inv C Q s -> at_line s = AtFor ((pid, true) :: rest) ->
  workers s !! pid = Some Finished.
Proof.
  intros [_ _ _ _ Hst _ Hl] Hat. unfold line_inv in Hl. rewrite Hat in Hl, Hst.
  destruct Hl as (_ & _ & _ & Hok).
  destruct (Hst pid true) as [Hr | [[_ Hw] | [Hb _]]]; try easy.
  apply Hok. now left.
Qed.

Lemma inv_main_step C Q s s' :
  inv C Q s -> main_step C s s' -> inv C Q s'.
Proof.
  intros Hinv Hstep.
  destruct Hstep;
    pose proof Hinv as [Hacc Hcap Htr Hcnt Hst Hre Hl];
    unfold line_inv in Hl; simpl in *.
  - (* while: enter *)
    split; simpl; auto.
  - (* while: leave *)
    split; simpl; auto. unfold line_inv. simpl.
    destruct Hl as [Hdom _]. rewrite dom_empty_L in Hdom.
    apply dom_empty_iff_L in Hdom. auto.
  - (* start a process *)
    destruct Hl as [Hdom Hn].
    pose proof (size_same_dom _ _ Hdom) as Hsize.
    split; simpl; auto.
    + rewrite map_size_insert_None by assumption. lia.
    + rewrite map_size_insert_None by assumption. lia.
    + intros p b Hp. destruct (Hst p b Hp) as [Hr | [[Hb Hw] | (Hb & ph & Hw & Hph)]];
        [discriminate| |]; right.
      * left. split; [exact Hb|]. rewrite lookup_insert_ne; [exact Hw|congruence].
      * right. split; [exact Hb|]. exists ph.
        rewrite lookup_insert_ne; [auto|congruence].
    + unfold line_inv. simpl. rewrite dom_insert_L, Hdom.
      repeat split; auto. rewrite <- Hdom. now apply not_elem_of_dom.
  - (* no process to start *)
    split; simpl; auto.
  - (* processes[p.pid] = p *)
    destruct Hl as (Hdom & Hfresh & Hn).
    assert (Hsize : size W = S (size P)).
    { rewrite <- (size_dom (D := gset Z) W), Hdom, size_union by set_solver.
      now rewrite size_singleton, size_dom. }
    split; simpl; auto.
    + rewrite map_size_insert_None by now apply not_elem_of_dom. lia.
    + unfold line_inv. simpl.
      rewrite dom_insert_L, map_size_insert_None by now apply not_elem_of_dom.
      split; [exact Hdom|lia].
  - (* num_active_processes += 1 *)
    split; simpl; auto. destruct Hl. lia.
  - (* items() *)
    split; simpl; auto. unfold line_inv. simpl. destruct Hl.
    repeat split; auto; apply items_ok_map_to_list.
  - (* for: no pair left *)
    split; simpl; auto. unfold line_inv. simpl. tauto.
  - (* for: not complete *)
    split; simpl; auto. unfold line_inv. simpl. destruct Hl as (? & ? & Hok).
    apply items_ok_tail in Hok. tauto.
  - (* join *)
    pose proof (seen_complete_finished _ _ _ pid rest Hinv eq_refl) as Hfin.
    simpl in Hfin. assert (ph = Finished) by congruence. subst ph.
    destruct Hl as (Hdom & Hn & Hok).
    pose proof (proj2 Hok pid (ltac:(now left))) as Hflag.
    apply items_ok_tail in Hok as [Hpid Hok].
    pose proof (size_delete_present W pid _ Hfin) as Hsize.
    split; simpl; auto.
    + rewrite length_app. simpl. lia.
    + lia.
    + intros p b Hp. destruct (decide (p = pid)) as [->|Hne]; [now left|right].
      destruct (Hst p b Hp) as [Hr | [[Hb Hw] | (Hb & ph & Hw & Hph)]];
        [discriminate| |].
      * left. split; [exact Hb|]. now rewrite lookup_delete_ne.
      * right. split; [exact Hb|]. exists ph. now rewrite lookup_delete_ne.
    + apply Forall_app. split; [exact Hre|]. now repeat constructor.
    + unfold line_inv. simpl. repeat split; auto.
      * apply dom_insert_of_delete; [exact Hdom|]. now apply elem_of_dom_2 in Hfin.
      * rewrite dom_delete_L. set_solver.
      * apply Hok.
      * apply Hok.
  - (* join: the process is not in [processes] *)
    exfalso.
    pose proof (seen_complete_finished _ _ _ pid rest Hinv eq_refl) as Hfin.
    simpl in Hfin. destruct Hl as (Hdom & _).
    apply elem_of_dom_2 in Hfin. rewrite Hdom in Hfin.
    apply elem_of_dom in Hfin as [? ?]. congruence.
  - (* del processes[pid] *)
    destruct Hl as (Hdom & Hpid & Hn & Hflag & Hrest & Hok).
    assert (Hin : is_Some (P !! pid)).
    { apply elem_of_dom. rewrite Hdom. set_solver. }
    destruct Hin as [f Hf].
    pose proof (size_delete_present P pid _ Hf) as Hsize.
    split; simpl; auto; [lia|].
    unfold line_inv. simpl. repeat split; auto.
    + symmetry. now apply dom_delete_of_insert.
    + lia.
    + apply Hok.
    + apply Hok.
  - (* del processes_status_dict[pid] *)
    destruct Hl as (Hdom & Hpid & Hn & Hflag & Hrest & Hok).
    split; simpl; auto.
    + intros p b Hp. destruct (decide (p = pid)) as [->|Hne].
      { now rewrite lookup_delete_eq in Hp. }
      rewrite lookup_delete_ne in Hp by congruence.
      destruct (Hst p b Hp) as [Hr | Hr]; [congruence|now right].
    + unfold line_inv. simpl. repeat split; auto.
      * apply Hok.
      * intros p Hp. rewrite lookup_delete_ne; [now apply Hok|].
        intros <-. apply Hrest. apply list_elem_of_fmap. now exists (pid, true).
  - (* del: the process is not in [processes_status_dict] *)
    exfalso. destruct Hl as (_ & _ & _ & Hflag & _). congruence.
  - (* num_active_processes -= 1 *)
    destruct Hl as (Hdom & Hn & Hok).
    split; simpl; auto; [lia|].
    unfold line_inv. simpl. repeat split; auto; [lia|apply Hok|apply Hok].
Qed.

(** Writing the entry of a live worker [pid] leaves the invariant of the
    line in place: [pid] is neither being reaped nor seen complete. *)
Lemma line_inv_worker C l q P n D D' W W' R pid :
  line_inv C (mkState l q P n D W R) ->
  dom W' = dom W ->
  pid ∈ dom W ->
  D !! pid <> Some true ->
  (forall p, p <> pid -> D' !! p = D !! p) ->
  line_inv C (mkState l q P n D' W' R).
Proof.
  intros Hl Hdom Hpid Hflag Hsame. unfold line_inv in *. simpl in *.
  assert (Hitems : forall items, items_ok D items -> items_ok D' items).
  { intros items [Hnd Hok]. split; [exact Hnd|]. intros p Hp.
    specialize (Hok p Hp). rewrite Hsame; [exact Hok|congruence]. }
  destruct l; rewrite ?Hdom; try tauto.
  - destruct Hl as (? & ? & ?). repeat split; auto; now apply Hitems.
  - destruct Hl as (? & Hn & ? & Hd & ? & ?).
    assert (pid <> pid0) by (intros <-; contradiction).
    repeat split; auto; try (now apply Hitems). now rewrite Hsame.
  - destruct Hl as (? & Hn & ? & Hd & ? & ?).
    assert (pid <> pid0) by (intros <-; contradiction).
    repeat split; auto; try (now apply Hitems). now rewrite Hsame.
  - destruct Hl as (? & ? & ?). repeat split; auto; now apply Hitems.
  - exfalso. destruct Hl as (HW & _). rewrite HW, dom_empty_L in Hpid.
    set_solver.
Qed.

Lemma inv_worker_step C Q s s' :
  inv C Q s -> worker_step s s' -> inv C Q s'.
Proof.
  intros [Hacc Hcap Htr Hcnt Hst Hre Hl] Hstep.
  destruct Hstep as [l q P n D W R pid Hw | l q P n D W R pid Hw
                    | l q P n D W R pid ph Hw Hph]; simpl in *.
  - (* processes_status_dict[pid] = False *)
    assert (Hnone : D !! pid <> Some true).
    { intros Hd. destruct (Hst _ _ Hd) as [Hr | [[_ Hf] | [Hb _]]]; try congruence.
      unfold line_inv in Hl. simpl in Hl.
      destruct l; try discriminate; injection Hr as ->;
        destruct Hl as (_ & Hnot & _); apply Hnot; now apply elem_of_dom_2 in Hw. }
    split; simpl; auto.
    + rewrite map_size_insert_Some by eauto. exact Hacc.
    + rewrite map_size_insert_Some by eauto. exact Hcap.
    + intros p b Hp. destruct (decide (p = pid)) as [->|Hne].
      * rewrite lookup_insert_eq in Hp. injection Hp as <-. right. right.
        split; [reflexivity|]. exists Working. now rewrite lookup_insert_eq.
      * rewrite lookup_insert_ne in Hp by congruence.
        rewrite lookup_insert_ne by congruence. now apply Hst.
    + eapply line_inv_worker; eauto.
      * apply dom_insert_lookup_L. eauto.
      * now apply elem_of_dom_2 in Hw.
      * intros p Hne. now rewrite lookup_insert_ne.
  - (* processes_status_dict[pid] = True *)
    assert (Hnone : D !! pid <> Some true).
    { intros Hd. destruct (Hst _ _ Hd) as [Hr | [[_ Hf] | [Hb _]]]; try congruence.
      unfold line_inv in Hl. simpl in Hl.
      destruct l; try discriminate; injection Hr as ->;
        destruct Hl as (_ & Hnot & _); apply Hnot; now apply elem_of_dom_2 in Hw. }
    split; simpl; auto.
    + rewrite map_size_insert_Some by eauto. exact Hacc.
    + rewrite map_size_insert_Some by eauto. exact Hcap.
    + intros p b Hp. destruct (decide (p = pid)) as [->|Hne].
      * rewrite lookup_insert_eq in Hp. injection Hp as <-. right. left.
        split; [reflexivity|]. now rewrite lookup_insert_eq.
      * rewrite lookup_insert_ne in Hp by congruence.
        rewrite lookup_insert_ne by congruence. now apply Hst.
    + eapply line_inv_worker; eauto.
      * apply dom_insert_lookup_L. eauto.
      * now apply elem_of_dom_2 in Hw.
      * intros p Hne. now rewrite lookup_insert_ne.
  - (* the process ends early *)
    assert (Hnone : D !! pid <> Some true).
    { intros Hd. destruct (Hst _ _ Hd) as [Hr | [[_ Hf] | [Hb _]]]; try congruence.
      - unfold line_inv in Hl. simpl in Hl.
        destruct l; try discriminate; injection Hr as ->;
          destruct Hl as (_ & Hnot & _); apply Hnot; now apply elem_of_dom_2 in Hw.
      - destruct Hph; congruence. }
    split; simpl; auto.
    + rewrite map_size_insert_Some by eauto. exact Hacc.
    + rewrite map_size_insert_Some by eauto. exact Hcap.
    + intros p b Hp. destruct (decide (p = pid)) as [->|Hne].
      * destruct (Hst _ _ Hp) as [Hr | [[Hb Hf] | (Hb & ph' & Hw' & Hn1 & Hn2)]];
          [now left| destruct Hph; congruence |].
        right. right. split; [exact Hb|]. exists Crashed.
        rewrite lookup_insert_eq. now repeat split.
      * rewrite lookup_insert_ne by congruence. now apply Hst.
    + eapply line_inv_worker; eauto.
      * apply dom_insert_lookup_L. eauto.
      * now apply elem_of_dom_2 in Hw.
Qed.

Lemma inv_step C Q s s' : inv C Q s -> step C s s' -> inv C Q s'.
Proof.
  intros Hinv [Hstep|Hstep]; [eapply inv_main_step|eapply inv_worker_step]; eauto.
Qed.

Lemma inv_rtc C Q s s' : inv C Q s -> rtc (step C) s s' -> inv C Q s'.
Proof. intros Hinv Hrtc. induction Hrtc; eauto using inv_step. Qed.

Lemma inv_reachable C names s :
  reachable C names s -> inv C (length names) s.
Proof. apply inv_rtc, inv_init. Qed.

(** One job from start to reaping, when its worker runs to the end before
    the main process looks at the dict. *)
Lemma run_one_job C file_name q R :
  1 <= C ->
  rtc (step C)
      (mkState AtWhile (file_name :: q) ∅ 0 ∅ ∅ R)
      (mkState AtWhile q ∅ 0 ∅ ∅ (R ++ [(file_name, Finished)])).
Proof.
  intros HC.
  eapply rtc_l. { left. apply step_while_enter. now left. }
  eapply rtc_l. { left. apply step_start with (pid := 0%Z); [lia|apply lookup_empty]. }
  eapply rtc_l. { left. apply step_store. }
  eapply rtc_l. { left. apply step_incr. }
  eapply rtc_l. { right. apply worker_mark with (pid := 0%Z). apply lookup_insert_eq. }
  eapply rtc_l. { right. apply worker_finish with (pid := 0%Z). apply lookup_insert_eq. }
  eapply rtc_l. { left. apply step_items. }
  rewrite !insert_insert_eq, !insert_empty, map_to_list_singleton.
  eapply rtc_l.
  { left. eapply step_join; [apply lookup_singleton_eq|apply lookup_singleton_eq|now left]. }
  eapply rtc_l. { left. apply step_del_process. }
  eapply rtc_l. { left. apply step_del_status. rewrite lookup_singleton_eq. eauto. }
  eapply rtc_l. { left. apply step_decr. }
  eapply rtc_l. { left. apply step_for_done. }
  rewrite !delete_singleton_eq. apply rtc_refl.
Qed.

(** With room for one process the loop can run every job and leave. *)
Lemma run_all C q : forall R,
  1 <= C ->
  rtc (step C)
      (mkState AtWhile q ∅ 0 ∅ ∅ R)
      (mkState Done [] ∅ 0 ∅ ∅ (R ++ map (fun f => (f, Finished)) q)).
Proof.
  induction q as [|f q IH]; intros R HC; simpl.
  - rewrite app_nil_r. apply rtc_once. left. apply step_while_exit.
  - etrans; [apply run_one_job, HC|].
    replace (R ++ (f, Finished) :: map (fun f => (f, Finished)) q)
      with ((R ++ [(f, Finished)]) ++ map (fun f => (f, Finished)) q)
      by now rewrite <- app_assoc.
    apply IH, HC.
Qed.

Lemma not_draining s :
  ~ draining s <-> video_queue s = [] /\ processes s = ∅.
Proof.
  unfold draining. split.
  - intros H. split.
    + destruct (video_queue s); [reflexivity|]. exfalso. apply H. now left.
    + destruct (decide (processes s = ∅)) as [|Hne]; [assumption|].
      exfalso. apply H. now right.
  - intros [Hq HP] [H|H]; contradiction.
Qed.

(** The [while] statement is left from a state exactly when its test is
    false there. *)
Lemma leaves_loop_iff C s :
  at_line s = AtWhile ->
  ((exists s', main_step C s s' /\ at_line s' = Done) <-> ~ draining s).
Proof.
  intros Hat. rewrite not_draining. split.
  - intros (s' & Hstep & Hdone).
    destruct Hstep; simpl in *; try discriminate. auto.
  - destruct s as [l q P n D W R]. simpl in *. intros [-> ->]. subst l.
    eexists. split; [apply step_while_exit|reflexivity].
Qed.



(** *** A worker that ends early *)

Lemma crashed_step C Q s s' pid :
  inv C Q s -> workers s !! pid = Some Crashed -> step C s s' ->
  workers s' !! pid = Some Crashed.
Proof.
  intros Hinv Hcr [Hstep|Hstep].
  - destruct Hstep; simpl in *; try assumption.
    + rewrite lookup_insert_ne; [assumption|congruence].
    + pose proof (seen_complete_finished _ _ _ pid0 rest Hinv eq_refl) as Hfin.
      simpl in Hfin. rewrite lookup_delete_ne; [assumption|congruence].
  - destruct Hstep as [? ? ? ? ? ? ? pid0 Hw | ? ? ? ? ? ? ? pid0 Hw
                      | ? ? ? ? ? ? ? pid0 ph Hw Hph]; simpl in *.
    + rewrite lookup_insert_ne; [assumption|congruence].
    + rewrite lookup_insert_ne; [assumption|congruence].
    + destruct (decide (pid0 = pid)) as [->|Hne].
      * apply lookup_insert_eq.
      * now rewrite lookup_insert_ne.
Qed.

Lemma crashed_not_surfaced C Q s pid :
  inv C Q s -> workers s !! pid = Some Crashed ->
  processes_status_dict s !! pid <> Some true /\ at_line s <> Done.
Proof.
  intros [_ _ _ _ Hst _ Hl] Hcr. unfold line_inv in Hl. split.
  - intros Hd. destruct (Hst _ _ Hd) as [Hr | [[_ Hf] | [Hb _]]]; try congruence.
    apply elem_of_dom_2 in Hcr.
    destruct (at_line s); try discriminate; injection Hr as ->;
      destruct Hl as (_ & Hnot & _); contradiction.
  - intros Hat. rewrite Hat in Hl. destruct Hl as (HW & _).
    now rewrite HW, lookup_empty in Hcr.
Qed.

(** Once a worker has ended early it stays unjoined, its flag never
    becomes [True], and the loop is never left. *)
Lemma crashed_forever C Q s pid :
  inv C Q s -> workers s !! pid = Some Crashed ->
  forall s', rtc (step C) s s' ->
    workers s' !! pid = Some Crashed /\
    processes_status_dict s' !! pid <> Some true /\
    at_line s' <> Done.
Proof.
  intros Hinv Hcr s' Hrtc. revert Hinv Hcr.
  induction Hrtc as [s|s s1 s' Hstep _ IH]; intros Hinv Hcr.
  - split; [exact Hcr|]. eapply crashed_not_surfaced; eauto.
  - apply IH; [eapply inv_step|eapply crashed_step]; eauto.
Qed.

Lemma crashed_example_reachable : reachable 1 ["a.mp4"%string] crashed_example.
Proof.
  unfold reachable, init, crashed_example.
  eapply rtc_l. { left. apply step_while_enter. now left. }
  eapply rtc_l. { left. apply step_start with (pid := 0%Z); [lia|apply lookup_empty]. }
  eapply rtc_l. { left. apply step_store. }
  eapply rtc_l. { left. apply step_incr. }
  eapply rtc_l. { right. apply worker_mark with (pid := 0%Z). apply lookup_insert_eq. }
  eapply rtc_l.
  { right. apply worker_crash with (pid := 0%Z) (ph := Working);
      [apply lookup_insert_eq|now right]. }
  rewrite !insert_insert_eq, !insert_empty. apply rtc_refl.
Qed.



Lemma crashed_example_continues :
  rtc (step 1) crashed_example crashed_example_later.
Proof.
  apply rtc_once. left. unfold crashed_example, crashed_example_later.
  rewrite <- (map_to_list_singleton (M := gmap Z) 0%Z false). apply step_items.
Qed.


End SchedulerFacts.

(** ** Subtitle export *)

Section SrtFacts.
Import Text Srt.

Lemma digit_is_digit (n : Z) : is_digit (digit (n mod 10)) = true.
Proof.
  pose proof (Z.mod_pos_bound n 10 ltac:(lia)) as Hb.
  unfold is_digit, digit. rewrite nat_ascii_embedding by lia.
  apply andb_true_intro. split; apply Nat.leb_le; lia.
Qed.

Lemma digit_value (n : Z) :
  (Z.of_nat (nat_of_ascii (digit (n mod 10))) - 48 = n mod 10)%Z.
Proof.
  pose proof (Z.mod_pos_bound n 10 ltac:(lia)) as Hb.
  unfold digit. rewrite nat_ascii_embedding by lia. lia.
Qed.

Lemma decimal_from_app fuel : forall n acc,
  decimal_from fuel n acc = decimal_from fuel n [] ++ acc.
Proof.
  induction fuel as [|fuel IH]; intros n acc; cbn [decimal_from]; [reflexivity|].
  destruct (n <? 10)%Z; [reflexivity|].
  rewrite (IH _ (_ :: acc)), (IH _ [_]), <- app_assoc. reflexivity.
Qed.

Lemma decimal_from_digits fuel : forall n,
  forallb is_digit (decimal_from fuel n []) = true.
Proof.
  induction fuel as [|fuel IH]; intros n; cbn [decimal_from]; [reflexivity|].
  destruct (n <? 10)%Z.
  - cbn [forallb]. rewrite digit_is_digit. reflexivity.
  - rewrite decimal_from_app, forallb_app, IH. cbn [forallb].
    rewrite digit_is_digit. reflexivity.
Qed.

Lemma number_of_snoc s c :
  number_of (s ++ [c]) = (10 * number_of s + (Z.of_nat (nat_of_ascii c) - 48))%Z.
Proof. unfold number_of. now rewrite fold_left_app. Qed.

Lemma decimal_from_number fuel : forall n,
  (0 <= n < Z.of_nat fuel)%Z -> number_of (decimal_from fuel n []) = n.
Proof.
  induction fuel as [|fuel IH]; intros n Hn; [lia|]. cbn [decimal_from].
  destruct (n <? 10)%Z eqn:E.
  - apply Z.ltb_lt in E. change [digit (n mod 10)] with ([] ++ [digit (n mod 10)]).
    rewrite number_of_snoc, digit_value. change (number_of []) with 0%Z.
    rewrite Z.mod_small; lia.
  - apply Z.ltb_ge in E.
    rewrite decimal_from_app, number_of_snoc, digit_value, IH.
    + pose proof (Z.div_mod n 10 ltac:(lia)). lia.
    + split; [apply Z.div_pos; lia|].
      assert (n / 10 < n)%Z by (apply Z.div_lt; lia). lia.
Qed.

Lemma decimal_from_length fuel : forall n k,
  (0 <= n < 10 ^ Z.of_nat (S k))%Z -> length (decimal_from fuel n []) <= S k.
Proof.
  induction fuel as [|fuel IH]; intros n k Hn; cbn [decimal_from length]; [lia|].
  destruct (n <? 10)%Z eqn:E; cbn [length]; [lia|].
  apply Z.ltb_ge in E. rewrite decimal_from_app, length_app. cbn [length].
  destruct k as [|k]; [change (10 ^ Z.of_nat 1)%Z with 10%Z in Hn; lia|].
  assert (Hdiv : (0 <= n / 10 < 10 ^ Z.of_nat (S k))%Z).
  { split; [apply Z.div_pos; lia|]. apply Z.div_lt_upper_bound; [lia|].
    replace (Z.of_nat (S (S k))) with (Z.succ (Z.of_nat (S k))) in Hn by lia.
    rewrite Z.pow_succ_r in Hn by lia. lia. }
  specialize (IH _ _ Hdiv). lia.
Qed.

Lemma decimal_number n : (0 <= n)%Z -> number_of (decimal n) = n.
Proof. intros Hn. apply decimal_from_number. lia. Qed.

Lemma decimal_digits n : forallb is_digit (decimal n) = true.
Proof. apply decimal_from_digits. Qed.

Lemma zero_pad_digits width s :
  forallb is_digit s = true -> forallb is_digit (zero_pad width s) = true.
Proof.
  intros Hs. unfold zero_pad. rewrite forallb_app, Hs, andb_true_r.
  induction (width - length s) as [|k IH]; [reflexivity|exact IH].
Qed.

Lemma zero_pad_number width s : number_of (zero_pad width s) = number_of s.
Proof.
  unfold zero_pad, number_of. rewrite fold_left_app. f_equal.
  induction (width - length s) as [|k IH]; [reflexivity|exact IH].
Qed.

Lemma zero_pad_length width s :
  length (zero_pad width s) = Nat.max width (length s).
Proof. unfold zero_pad. rewrite length_app, repeat_length. lia. Qed.

(** [f"{n:0w}"] of a number [0 <= n]: digits that write [n], at least [w]
    of them, and exactly [w] when [n < 10 ^ w]. *)
Lemma format_int_nonneg width n :
  (0 <= n)%Z ->
  forallb is_digit (format_int width n) = true /\
  number_of (format_int width n) = n /\
  width <= length (format_int width n).
Proof.
  intros Hn. unfold format_int.
  assert (E : (n <? 0)%Z = false) by (apply Z.ltb_ge; lia). rewrite E.
  split; [apply zero_pad_digits, decimal_digits|].
  split; [rewrite zero_pad_number; now apply decimal_number|].
  rewrite zero_pad_length. lia.
Qed.

Lemma format_int_width k n :
  (0 <= n < 10 ^ Z.of_nat (S k))%Z ->
  digits_of_width (S k) (format_int (S k) n) /\
  number_of (format_int (S k) n) = n.
Proof.
  intros Hn. destruct (format_int_nonneg (S k) n) as (Hd & Hv & Hl); [lia|].
  split; [split; [|exact Hd]|exact Hv].
  unfold format_int in *.
  assert (E : (n <? 0)%Z = false) by (apply Z.ltb_ge; lia). rewrite E in *.
  rewrite zero_pad_length.
  pose proof (decimal_from_length (S (Z.to_nat n)) n k Hn). unfold decimal. lia.
Qed.

Section Components.
Local Open Scope Q_scope.

Lemma Qfloor_between x (a b : Z) :
  inject_Z a <= x -> x < inject_Z b -> (a <= Qfloor x < b)%Z.
Proof.
  intros Ha Hb. split.
  - rewrite <- (Qfloor_Z a). now apply Qfloor_resp_le.
  - rewrite Zlt_Qlt. eapply Qle_lt_trans; [apply Qfloor_le|exact Hb].
Qed.

Lemma int_of_Z (k : Z) : int_of (inject_Z k) = k.
Proof.
  unfold int_of. destruct (Qle_bool 0 (inject_Z k)); [apply Qfloor_Z|apply Qceiling_Z].
Qed.

Lemma int_of_nonneg x : 0 <= x -> int_of x = Qfloor x.
Proof.
  intros Hx. unfold int_of. apply Qle_bool_iff in Hx. now rewrite Hx.
Qed.

Lemma fmod_bounds x m : 0 < m -> 0 <= fmod x m /\ fmod x m < m.
Proof.
  intros Hm. unfold fmod, floordiv.
  pose proof (Qfloor_le (x / m)) as Hlo. pose proof (Qlt_floor (x / m)) as Hhi.
  rewrite inject_Z_plus in Hhi. change (inject_Z 1) with 1 in Hhi.
  set (f := inject_Z (Qfloor (x / m))) in *.
  assert (Hx : x / m * m == x) by (field; lra).
  assert (H1 : f * m <= x).
  { apply Qle_trans with (x / m * m); [|rewrite Hx; apply Qle_refl].
    apply Qmult_le_compat_r; lra. }
  assert (H2 : x < (f + 1) * m).
  { apply Qle_lt_trans with (x / m * m); [rewrite Hx; apply Qle_refl|].
    apply Qmult_lt_compat_r; lra. }
  split; lra.
Qed.

Lemma hours_of_floor seconds : hours_of seconds = Qfloor (seconds / 3600).
Proof. apply int_of_Z. Qed.

Lemma hours_of_bounds seconds :
  (0 <= seconds -> (0 <= hours_of seconds)%Z) /\
  (0 <= seconds -> seconds < 360000 -> (hours_of seconds < 10 ^ Z.of_nat 2)%Z).
Proof.
  rewrite hours_of_floor.
  assert (Hlo : 0 <= seconds -> inject_Z 0 <= seconds / 3600).
  { intros H0. change (inject_Z 0) with 0. apply Qle_shift_div_l; lra. }
  split.
  - intros H0.
    apply (Qfloor_between (seconds / 3600) 0 (Qfloor (seconds / 3600) + 1));
      [auto|apply Qlt_floor].
  - intros H0 H1. apply (Qfloor_between (seconds / 3600) 0 100); [auto|].
    change (inject_Z 100) with 100. apply Qlt_shift_div_r; lra.
Qed.

Lemma minutes_of_bounds seconds :
  (0 <= minutes_of seconds < 10 ^ Z.of_nat 2)%Z /\ (minutes_of seconds < 60)%Z.
Proof.
  unfold minutes_of, floordiv. rewrite int_of_Z.
  destruct (fmod_bounds seconds 3600) as [Hlo Hhi]; [lra|].
  destruct (Qfloor_between (fmod seconds 3600 / 60) 0 60).
  - change (inject_Z 0) with 0. apply Qle_shift_div_l; lra.
  - change (inject_Z 60) with 60. apply Qlt_shift_div_r; lra.
  - change (10 ^ Z.of_nat 2)%Z with 100%Z. lia.
Qed.

Lemma secs_of_bounds seconds :
  (0 <= secs_of seconds < 10 ^ Z.of_nat 2)%Z /\ (secs_of seconds < 60)%Z.
Proof.
  unfold secs_of.
  destruct (fmod_bounds seconds 60) as [Hlo Hhi]; [lra|].
  rewrite int_of_nonneg by exact Hlo.
  destruct (Qfloor_between (fmod seconds 60) 0 60); [exact Hlo|exact Hhi|].
  change (10 ^ Z.of_nat 2)%Z with 100%Z. lia.
Qed.

Lemma milliseconds_of_bounds seconds :
  (0 <= milliseconds_of seconds < 10 ^ Z.of_nat 3)%Z.
Proof.
  unfold milliseconds_of.
  destruct (fmod_bounds seconds 1) as [Hlo Hhi]; [lra|].
  rewrite int_of_nonneg by lra.
  destruct (Qfloor_between (fmod seconds 1 * 1000) 0 1000).
  - change (inject_Z 0) with 0. lra.
  - change (inject_Z 1000) with 1000. lra.
  - change (10 ^ Z.of_nat 3)%Z with 1000%Z. lia.
Qed.

Lemma format_srt_fold (l : list (nat * segment)) : forall acc,
  fold_left (fun srt_content '(i, seg) => srt_content ++ cue_block i seg) l acc =
  acc ++ concat (map (fun p => cue_block p.1 p.2) l).
Proof.
  induction l as [|[i seg] l IH]; intros acc; cbn [fold_left map concat].
  - now rewrite app_nil_r.
  - rewrite IH, <- app_assoc. reflexivity.
Qed.

Lemma enumerate_from_length segments : forall k,
  length (enumerate_from k segments) = length segments.
Proof.
  induction segments as [|seg rest IH]; intros k; cbn; [reflexivity|].
  now rewrite IH.
Qed.

Lemma enumerate_from_lookup segments : forall k i seg,
  segments !! i = Some seg ->
  enumerate_from k segments !! i = Some ((k + i)%nat, seg).
Proof.
  induction segments as [|x rest IH]; intros k i seg Hi; [discriminate|].
  destruct i as [|i].
  - injection Hi as ->. cbn. now rewrite Nat.add_0_r.
  - change (enumerate_from (S k) rest !! i = Some ((k + S i)%nat, seg)).
    rewrite (IH (S k) i seg Hi). f_equal. f_equal. lia.
Qed.

(** The shape [HH:MM:SS,mmm] of a time stamp. *)
Lemma format_timestamp_shape seconds :
  exists hh mm ss mmm,
    format_timestamp seconds =
      hh ++ ":"%char :: mm ++ ":"%char :: ss ++ ","%char :: mmm /\
    (2 <= length hh)%nat /\
    digits_of_width 2 mm /\ number_of mm = minutes_of seconds /\
    digits_of_width 2 ss /\ number_of ss = secs_of seconds /\
    digits_of_width 3 mmm /\ number_of mmm = milliseconds_of seconds /\
    (minutes_of seconds < 60)%Z /\ (secs_of seconds < 60)%Z /\
    (0 <= seconds ->
       forallb is_digit hh = true /\ number_of hh = hours_of seconds) /\
    (0 <= seconds -> seconds < 360000 -> digits_of_width 2 hh).
Proof.
  exists (format_int 2 (hours_of seconds)), (format_int 2 (minutes_of seconds)),
         (format_int 2 (secs_of seconds)), (format_int 3 (milliseconds_of seconds)).
  destruct (minutes_of_bounds seconds) as [Hm Hm'].
  destruct (secs_of_bounds seconds) as [Hs Hs'].
  pose proof (milliseconds_of_bounds seconds) as Hms.
  destruct (hours_of_bounds seconds) as [Hh Hh'].
  destruct (format_int_width 1 _ Hm) as [? ?].
  destruct (format_int_width 1 _ Hs) as [? ?].
  destruct (format_int_width 2 _ Hms) as [? ?].
  split; [reflexivity|]. split.
  { unfold format_int. destruct (_ <? _)%Z.
    - cbn [length]. rewrite zero_pad_length.
      assert (1 <= length (decimal (- hours_of seconds)))%nat; [|lia].
      unfold decimal. cbn [decimal_from]. destruct (_ <? _)%Z; [cbn [length]; lia|].
      rewrite decimal_from_app, length_app. cbn [length]. lia.
    - rewrite zero_pad_length. lia. }
  repeat (split; [assumption|]). split.
  - intros Hpos.
    destruct (format_int_nonneg 2 (hours_of seconds) (Hh Hpos)) as (? & ? & ?).
    auto.
  - intros Hpos Hlt. apply (format_int_width 1). auto.
Qed.

End Components.

(** C9: the export is the concatenation, in order, of one block per
    segment; block number [i] (from 0) is the decimal numeral of [i + 1], a
    newline, the start stamp, [" --> "], the end stamp, a newline, the
    text and two newlines; every stamp is [HH:MM:SS,mmm] with two digits
    of minutes, two of seconds and three of milliseconds, and hours padded
    with zeros to at least two characters (two digits below 100 hours). *)
Theorem C9_srt_cue_blocks (segments : list segment) :
  format_srt segments =
    concat (map (fun p => cue_block p.1 p.2) (enumerate_from 0 segments)) /\
  length (enumerate_from 0 segments) = length segments /\
  (forall i seg, segments !! i = Some seg ->
     enumerate_from 0 segments !! i = Some (i, seg) /\
     exists index,
       cue_block i seg =
         index ++ nl :: format_timestamp (seg_start seg) ++ lit " --> " ++
         format_timestamp (seg_end seg) ++ nl :: seg_text seg ++ [nl; nl] /\
       forallb is_digit index = true /\
       number_of index = (Z.of_nat i + 1)%Z) /\
  (forall seconds : Q,
     exists hh mm ss mmm,
       format_timestamp seconds =
         hh ++ ":"%char :: mm ++ ":"%char :: ss ++ ","%char :: mmm /\
       2 <= length hh /\
       digits_of_width 2 mm /\ number_of mm = minutes_of seconds /\
       digits_of_width 2 ss /\ number_of ss = secs_of seconds /\
       digits_of_width 3 mmm /\ number_of mmm = milliseconds_of seconds /\
       (minutes_of seconds < 60)%Z /\ (secs_of seconds < 60)%Z /\
       ((0 <= seconds)%Q ->
          forallb is_digit hh = true /\ number_of hh = hours_of seconds) /\
       ((0 <= seconds)%Q -> (seconds < 360000)%Q -> digits_of_width 2 hh)).
Proof.
  split; [apply (format_srt_fold _ [])|].
  split; [apply enumerate_from_length|].
  split; [|apply format_timestamp_shape].
  intros i seg Hi. split; [apply (enumerate_from_lookup segments 0 i seg Hi)|].
  exists (str_int (Z.of_nat i + 1)). split; [reflexivity|].
  unfold str_int.
  assert (E : (Z.of_nat i + 1 <? 0)%Z = false) by (apply Z.ltb_ge; lia).
  rewrite E. split; [apply decimal_digits|apply decimal_number; lia].
Qed.

Section SrtExamples.
Local Open Scope Q_scope.

Example timestamp_of_3661_5 : format_timestamp 3661.5 = lit "01:01:01,500".
Proof. vm_compute. reflexivity. Qed.

Example timestamp_of_0 : format_timestamp 0 = lit "00:00:00,000".
Proof. vm_compute. reflexivity. Qed.

Example timestamp_of_100_hours : format_timestamp 360000 = lit "100:00:00,000".
Proof. vm_compute. reflexivity. Qed.

Example srt_of_two_segments :
  format_srt [mkSegment 0 2.5 (lit "Hi there"); mkSegment 2.5 61 (lit "friend.")] =
  lit "1" ++ nl :: lit "00:00:00,000 --> 00:00:02,500" ++ nl ::
  lit "Hi there" ++ nl :: nl ::
  lit "2" ++ nl :: lit "00:00:02,500 --> 00:01:01,000" ++ nl ::
  lit "friend." ++ [nl; nl].
Proof. vm_compute. reflexivity. Qed.

End SrtExamples.

End SrtFacts.

(** ** Captions: shape of the texts and order of the times *)

Section CaptionFacts.
Import Text Segmenter Captions.

Lemma lstrip_head s c : head (lstrip s) = Some c -> isspace c = false.
Proof.
  induction s as [|x s IH]; simpl; [discriminate|].
  destruct (isspace x) eqn:E; [exact IH|]. simpl. congruence.
Qed.

Lemma lstrip_id s :
  (forall c, head s = Some c -> isspace c = false) -> lstrip s = s.
Proof.
  destruct s as [|x s]; [reflexivity|]. intros H. simpl.
  now rewrite (H x eq_refl).
Qed.

Lemma head_rev_last (s : str) : head (rev s) = last s.
Proof.
  induction s as [|x s _] using rev_ind; [reflexivity|].
  now rewrite rev_app_distr, last_snoc.
Qed.

Lemma rstrip_last s c : last (rstrip s) = Some c -> isspace c = false.
Proof.
  unfold rstrip. rewrite <- head_rev_last, rev_involutive. apply lstrip_head.
Qed.

Lemma rstrip_head s :
  (forall c, head s = Some c -> isspace c = false) ->
  forall c, head (rstrip s) = Some c -> isspace c = false.
Proof.
  intros H c Hc. destruct (rstrip_decompose s) as (sp & _ & Hs).
  apply H. rewrite Hs. destruct (rstrip s); [discriminate|exact Hc].
Qed.

Lemma strip_is_trimmed s : trimmed (strip s).
Proof.
  split.
  - apply rstrip_head. intros c. apply lstrip_head.
  - intros c. apply rstrip_last.
Qed.

Lemma strip_of_trimmed s : trimmed s -> strip s = s.
Proof.
  intros [Hh Hl]. unfold strip. rewrite (lstrip_id s Hh).
  unfold rstrip. rewrite lstrip_id; [apply rev_involutive|].
  intros c. rewrite head_rev_last. apply Hl.
Qed.

Section AnyTime.
Context {time : Type} (t0 : time).

Implicit Types (ws : list (WordTimestamp time)) (d : time).

(** X1: no caption text starts or ends with white space, whatever the
    words' texts are; stripping it again changes nothing. *)
Theorem X1_caption_texts_trimmed ws d :
  Forall (fun s => trimmed (seg_text s) /\ strip (seg_text s) = seg_text s)
         (add_captions_to_video t0 ws d).
Proof.
  rewrite <- captions_erase. apply Forall_fmap.
  eapply Forall_impl; [apply (captions_text t0 ws d)|].
  intros [s g] [_ Hs]. simpl in *. rewrite Hs.
  split; [apply strip_is_trimmed|apply strip_of_trimmed, strip_is_trimmed].
Qed.

Lemma groups_length_bounds
    (out : list (CaptionSegment time * list (WordTimestamp time))) :
  Forall (fun sg => (1 <= Z.of_nat (length sg.2) <= max_caption_words)%Z) out ->
  (Z.of_nat (length out) <= Z.of_nat (length (concat (map snd out))) <=
   max_caption_words * Z.of_nat (length out))%Z.
Proof.
  unfold max_caption_words.
  induction 1 as [|sg out Hsg _ IH]; simpl; [lia|].
  rewrite length_app. lia.
Qed.

(** X2: [n] words give at least [n / 8] (rounded up) and at most [n]
    captions. *)
Theorem X2_caption_count ws d :
  let segs := add_captions_to_video t0 ws d in
  length segs <= length ws /\
  (Z.of_nat (length ws) <= max_caption_words * Z.of_nat (length segs))%Z.
Proof.
  intros segs. subst segs. rewrite <- captions_erase, length_map.
  destruct (captions_shape t0 ws d) as (closed & tail & E & Hcl & Htail & Hws & _).
  rewrite E.
  assert (Hall : Forall (fun sg => (1 <= Z.of_nat (length sg.2) <= max_caption_words)%Z)
                        (closed ++ tail)).
  { apply Forall_app. split.
    - eapply Forall_impl; [exact Hcl|]. intros [s g] Hg.
      now apply closed_group_facts in Hg as (_ & Hlen & _).
    - destruct Htail as [-> | (s & g & -> & Hopen)]; [constructor|].
      apply open_group_facts in Hopen as (_ & Hlen & _).
      repeat constructor; simpl; lia. }
  apply groups_length_bounds in Hall. rewrite Hws in Hall. lia.
Qed.

Section OrderedTimes.
Context (le : time -> time -> Prop) `{!PreOrder le}.

Lemma ends_ordered_le ws : forall from d,
  ends_ordered le from ws d -> le from d.
Proof.
  induction ws as [|w ws IH]; intros from d H; simpl in H; [exact H|].
  destruct H as [H1 H2]. etrans; [exact H1|]. now apply IH.
Qed.

Lemma loop_inside ws d : forall (st : loop_state time) cur,
  le t0 (start_time st) -> le (start_time st) cur ->
  ends_ordered le cur ws d ->
  Forall (inside t0 le d) (clips st) ->
  let st' := fold_left loop_body ws st in
  Forall (inside t0 le d) (clips st') /\
  le t0 (start_time st') /\ le (start_time st') d.
Proof.
  induction ws as [|w ws IH]; intros st cur H0 Hcur Hord Hclips; simpl in *.
  - repeat split; auto. etrans; eauto.
  - destruct Hord as [Hw Hrest].
    assert (Hsw : le (start_time st) (w_end w)) by (etrans; eauto).
    assert (Hd : le (w_end w) d) by now apply ends_ordered_le in Hrest.
    set (st1 := loop_body st w).
    assert (H1 : le t0 (start_time st1) /\ le (start_time st1) (w_end w) /\
                 Forall (inside t0 le d) (clips st1)).
    { subst st1. unfold loop_body. destruct (closes _ _); simpl.
      - split; [etrans; eauto|]. split; [reflexivity|].
        apply Forall_app. split; [exact Hclips|].
        repeat constructor; simpl; auto.
      - auto. }
    destruct H1 as (Ha & Hb & Hc). now apply (IH st1 (w_end w)).
Qed.

(** X3: when the word ends never go back, starting at or after [0] and
    ending at or before the clip's duration, every segment handed to
    [clip.subclip] lies inside the clip with its start not after its end. *)
Theorem X3_segments_inside_clip ws d :
  ends_ordered le t0 ws d ->
  Forall (inside t0 le d) (add_captions_to_video t0 ws d).
Proof.
  intros Hord. unfold add_captions_to_video.
  destruct ws as [|w ws]; [constructor|].
  assert (Hrun : Forall (inside t0 le d)
                    (clips (fold_left loop_body (w :: ws) (loop_init t0))) /\
                 le t0 (start_time (fold_left loop_body (w :: ws) (loop_init t0))) /\
                 le (start_time (fold_left loop_body (w :: ws) (loop_init t0))) d).
  { apply (loop_inside (w :: ws) d (loop_init t0) t0);
      [reflexivity|reflexivity|exact Hord|constructor]. }
  destruct Hrun as (Hclips & H0 & Hd).
  unfold flush. destruct (caption_text _); [exact Hclips|].
  apply Forall_app. split; [exact Hclips|].
  repeat constructor; simpl; auto. reflexivity.
Qed.

End OrderedTimes.

End AnyTime.

Lemma X3_segments_inside_clip_witness :
  Forall (inside 0%Q Qle 12%Q) (add_captions_to_video 0%Q nine_words 12%Q).
Proof.
  apply (X3_segments_inside_clip 0%Q Qle (PreOrder0 := Build_PreOrder _ Qle_refl Qle_trans)).
  vm_compute. intuition discriminate.
Defined.

End CaptionFacts.

(** ** [Tools.round_down], background clips and [VideoTools.crop] *)

Section ClipFacts.
Import Tools Background Crop.
Local Open Scope Q_scope.

Lemma ten_power_pos (decimals : Z) : 0 < 10 ^ decimals.
Proof. apply Qpower_0_lt. reflexivity. Qed.

(** X4: [round_down] gives the largest multiple of [10 ** -decimals] that
    does not exceed [num]; rounding down twice is rounding down once. *)
Theorem X4_round_down_floor (num : Q) (decimals : Z) :
  round_down num decimals <= num /\
  num < round_down num decimals + 1 / 10 ^ decimals /\
  (exists k : Z, round_down num decimals == inject_Z k * (1 / 10 ^ decimals)) /\
  (forall j : Z, inject_Z j * (1 / 10 ^ decimals) <= num ->
                 inject_Z j * (1 / 10 ^ decimals) <= round_down num decimals) /\
  round_down (round_down num decimals) decimals == round_down num decimals.
Proof.
  unfold round_down. pose proof (ten_power_pos decimals) as Hp.
  set (p := 10 ^ decimals) in *.
  pose proof (Qfloor_le (num * p)) as Hlo. pose proof (Qlt_floor (num * p)) as Hhi.
  rewrite inject_Z_plus in Hhi. change (inject_Z 1) with 1 in Hhi.
  set (f := Qfloor (num * p)) in *.
  assert (Hinv : 0 < 1 / p) by (apply Qlt_shift_div_l; lra).
  split; [apply Qle_shift_div_r; lra|].
  split.
  { setoid_replace (inject_Z f / p + 1 / p) with ((inject_Z f + 1) / p)
      using relation Qeq by (field; lra).
    apply Qlt_shift_div_l; lra. }
  split; [exists f; field; lra|].
  split.
  { intros j Hj.
    assert (Hjp : inject_Z j <= num * p).
    { setoid_replace (inject_Z j) with (inject_Z j * (1 / p) * p)
      using relation Qeq by (field; lra).
      apply Qmult_le_compat_r; lra. }
    assert (Hjf : (j <= f)%Z).
    { rewrite <- (Qfloor_Z j). now apply Qfloor_resp_le. }
    rewrite Zle_Qle in Hjf.
    setoid_replace (inject_Z f / p) with (inject_Z f * (1 / p))
      using relation Qeq by (field; lra).
    apply Qmult_le_compat_r; lra. }
  assert (E : Qfloor (inject_Z f / p * p) = f).
  { rewrite <- (Qfloor_Z f) at 2. apply Qfloor_comp. field. lra. }
  rewrite E. reflexivity.
Qed.

Lemma round_down_0 (u : Q) : round_down u 0 == inject_Z (Qfloor u).
Proof.
  unfold round_down. change (10 ^ 0) with 1.
  rewrite (Qfloor_comp (u * 1) u) by ring. field.
Qed.

(** X5: [trim_clip] raises exactly when the clip is shorter than the
    duration asked for; otherwise, for a draw [u] in the range
    [random.uniform] is given, the window starts on a whole second at or
    after [0], is not after [u], lasts [duration], and ends inside the
    clip. *)
Theorem X5_trim_clip_window (clip_duration duration u : Q) :
  (trim_clip clip_duration duration u = None <-> clip_duration < duration) /\
  (0 <= u -> u <= clip_duration - duration ->
   exists t_start t_end,
     trim_clip clip_duration duration u = Some (t_start, t_end) /\
     t_start == inject_Z (Qfloor u) /\
     t_end == t_start + duration /\
     0 <= t_start /\ t_start <= u /\ t_end <= clip_duration).
Proof.
  unfold trim_clip. split.
  - destruct (Qle_bool duration clip_duration) eqn:E.
    + apply Qle_bool_iff in E. split; [discriminate|]. intros H. lra.
    + split; [intros _|reflexivity].
      apply Qnot_le_lt. intros H. apply Qle_bool_iff in H. congruence.
  - intros H0 Hu.
    assert (E : Qle_bool duration clip_duration = true).
    { apply Qle_bool_iff. lra. }
    rewrite E. eexists _, _. split; [reflexivity|].
    pose proof (round_down_0 u) as Hr.
    pose proof (Qfloor_le u) as Hlo.
    assert (Hpos : (0 <= Qfloor u)%Z).
    { rewrite <- (Qfloor_Z 0). now apply Qfloor_resp_le. }
    rewrite Zle_Qle in Hpos. change (inject_Z 0) with 0 in Hpos.
    repeat split; try reflexivity; try exact Hr; rewrite ?Hr; lra.
Qed.

Lemma round_half_even_bounds (x : Q) (lo hi : Z) :
  inject_Z lo <= x -> x <= inject_Z hi ->
  (lo <= Trim.round_half_even x <= hi)%Z.
Proof.
  intros Hlo Hhi. pose proof (round_half_even_near x) as Hn.
  apply Qabs_Qle_condition in Hn as [Ha Hb].
  set (r := Trim.round_half_even x) in *.
  assert (H1 : inject_Z lo < inject_Z r + 1) by lra.
  assert (H2 : inject_Z r < inject_Z hi + 1) by lra.
  change 1 with (inject_Z 1) in H1, H2.
  rewrite <- inject_Z_plus, <- Zlt_Qlt in H1, H2. lia.
Qed.

(** Half of a whole number, rounded: off by at most one half. *)
Lemma round_half_of_Z (x : Z) :
  (x - 1 <= 2 * Trim.round_half_even (inject_Z x / 2) <= x + 1)%Z.
Proof.
  pose proof (round_half_even_near (inject_Z x / 2)) as Hn.
  apply Qabs_Qle_condition in Hn as [Ha Hb].
  set (r := Trim.round_half_even (inject_Z x / 2)) in *.
  assert (E : inject_Z x / 2 == inject_Z x * (1 # 2)) by field.
  rewrite E in Ha, Hb.
  assert (H1 : inject_Z x - 1 <= 2 * inject_Z r) by lra.
  assert (H2 : 2 * inject_Z r <= inject_Z x + 1) by lra.
  change 1 with (inject_Z 1) in H1, H2. change 2 with (inject_Z 2) in H1, H2.
  unfold Qminus in H1. change (- inject_Z 1) with (inject_Z (- 1)) in H1.
  rewrite <- inject_Z_plus, <- inject_Z_mult, <- Zle_Qle in H1, H2. lia.
Qed.

(** X6: for whole-number settings with the percentage between 0 and 100,
    the target height is a whole number between 0 and the full height,
    within half a pixel of the share left to the background; the width is
    the full width. *)
Theorem X6_target_resolution_bounds (full_w full_h : Z) (percent : Q) :
  (0 <= full_h)%Z -> 0 <= percent -> percent <= 100 ->
  (get_target_resolution (full_w, full_h) percent).1 = full_w /\
  (0 <= (get_target_resolution (full_w, full_h) percent).2 <= full_h)%Z /\
  Qabs (inject_Z (get_target_resolution (full_w, full_h) percent).2 -
        inject_Z full_h * (1 - percent / 100)) <= 1 # 2.
Proof.
  intros Hh H0 H100. unfold get_target_resolution. cbn [fst snd].
  split; [reflexivity|]. split; [|apply round_half_even_near].
  rewrite Zle_Qle in Hh. change (inject_Z 0) with 0 in Hh.
  assert (Hs : 0 <= 1 - percent / 100 /\ 1 - percent / 100 <= 1).
  { assert (E : percent / 100 == percent * (1 # 100)) by field.
    rewrite E. split; lra. }
  destruct Hs as [Hs0 Hs1].
  apply round_half_even_bounds.
  - change (inject_Z 0) with 0. apply Qmult_le_0_compat; assumption.
  - rewrite <- (Qmult_1_r (inject_Z full_h)) at 2.
    rewrite !(Qmult_comm (inject_Z full_h)). apply Qmult_le_compat_r; assumption.
Qed.

Lemma X6_target_resolution_bounds_witness :
  (get_target_resolution (1080, 1920)%Z 60).1 = 1080%Z /\
  (0 <= (get_target_resolution (1080, 1920)%Z 60).2 <= 1920)%Z /\
  Qabs (inject_Z (get_target_resolution (1080, 1920)%Z 60).2 -
        inject_Z 1920 * (1 - 60 / 100)) <= 1 # 2.
Proof.
  apply (X6_target_resolution_bounds 1080 1920 60); [lia|discriminate|discriminate].
Defined.

Lemma ratio_defined (target original : Z) :
  (0 < original)%Z -> ratio target original = Some (inject_Z target / inject_Z original).
Proof.
  intros H. unfold ratio.
  assert (E : (original =? 0)%Z = false) by (apply Z.eqb_neq; lia). now rewrite E.
Qed.

Lemma ratio_none (target original : Z) :
  ratio target original = None <-> original = 0%Z.
Proof.
  unfold ratio. destruct (original =? 0)%Z eqn:E.
  - apply Z.eqb_eq in E. tauto.
  - apply Z.eqb_neq in E. split; [discriminate|contradiction].
Qed.

(** Two ratios compare as their cross products do. *)
Lemma ratio_le (w ow h oh : Z) :
  (0 < ow)%Z -> (0 < oh)%Z ->
  Qle_bool (inject_Z w / inject_Z ow) (inject_Z h / inject_Z oh) = true <->
  (w * oh <= h * ow)%Z.
Proof.
  intros How Hoh. rewrite Qle_bool_iff, Zle_Qle, !inject_Z_mult.
  rewrite Zlt_Qlt in How, Hoh. change (inject_Z 0) with 0 in How, Hoh.
  set (W := inject_Z w). set (H := inject_Z h).
  set (A := inject_Z ow) in *. set (B := inject_Z oh) in *.
  assert (HAB : 0 < A * B) by (apply Qmult_lt_0_compat; assumption).
  assert (E1 : W / A * (A * B) == W * B) by (field; lra).
  assert (E2 : H / B * (A * B) == H * A) by (field; lra).
  split; intros Hle.
  - rewrite <- E1, <- E2. apply Qmult_le_compat_r; lra.
  - apply Qmult_le_r with (z := A * B); [exact HAB|]. now rewrite E1, E2.
Qed.

Lemma Qabs_scale (c x y e : Q) :
  0 < c -> Qabs (x - y) <= e -> Qabs (x * c - y * c) <= e * c.
Proof.
  intros Hc H. assert (E : x * c - y * c == (x - y) * c) by ring.
  rewrite E, Qabs_Qmult, (Qabs_pos c) by lra. apply Qmult_le_compat_r; lra.
Qed.

Lemma max_of_cases a b :
  (max_of a b = a \/ max_of a b = b) /\ a <= max_of a b /\ b <= max_of a b.
Proof.
  unfold max_of. destruct (Qle_bool a b) eqn:E.
  - apply Qle_bool_iff in E. split; [now right|]. split; lra.
  - assert (b < a).
    { apply Qnot_le_lt. intros Hle. apply Qle_bool_iff in Hle. congruence. }
    split; [now left|]. split; lra.
Qed.

Lemma size_bounds (n : Z) :
  (0 < n < 2 ^ 53)%Z -> 1 <= inject_Z n /\ inject_Z n <= 9007199254740992.
Proof.
  intros [H0 H1]. change 1 with (inject_Z 1).
  change 9007199254740992 with (inject_Z 9007199254740992).
  rewrite <- !Zle_Qle. lia.
Qed.

(** The quotient of two sizes, as a float: times the divisor it is within
    one part in [2^53] of the dividend. *)
Lemma size_ratio (target original : Z) :
  (0 < target < 2 ^ 53)%Z -> (0 < original < 2 ^ 53)%Z ->
  exists r,
    Binary64.div (inject_Z target) (inject_Z original) = Binary64.Finite r /\
    Qabs (r * inject_Z original - inject_Z target) <=
      inject_Z target * (1 # 9007199254740992) /\
    0 <= r /\ r <= 18014398509481984.
Proof.
  intros Ht Ho.
  destruct (size_bounds target Ht) as [Ht1 Ht2].
  destruct (size_bounds original Ho) as [Ho1 Ho2].
  set (T := inject_Z target) in *. set (O := inject_Z original) in *.
  set (a := T / O).
  assert (Ea : a * O == T) by (subst a; field; lra).
  assert (Ha0 : 1 # 9007199254740992 <= a).
  { subst a. apply Qle_shift_div_l; lra. }
  assert (Ha1 : a <= 9007199254740992).
  { subst a. apply Qle_shift_div_r; [lra|].
    assert (0 <= 9007199254740992 * (O - 1)) by (apply Qmult_le_0_compat; lra).
    lra. }
  assert (Hnormal : 2 ^ (-1022) <= Qabs a).
  { rewrite Qabs_pos by lra.
    apply Qle_trans with (1 # 9007199254740992); [|exact Ha0].
    apply Qle_bool_iff. vm_compute. reflexivity. }
  pose proof (rnd_error_normal a Hnormal) as Herr.
  rewrite (Qabs_pos a) in Herr by lra.
  exists (Binary64.rnd a). split; [|split; [|split]].
  - unfold Binary64.div.
    assert (E : Qeq_bool O 0 = false).
    { destruct (Qeq_bool O 0) eqn:E; [|reflexivity]. apply Qeq_bool_iff in E. lra. }
    rewrite E. apply fl_finite. rewrite Qabs_pos by lra.
    apply Qle_trans with 9007199254740992; [exact Ha1|].
    apply Qle_bool_iff. vm_compute. reflexivity.
  - pose proof (Qabs_scale O _ _ _ ltac:(lra) Herr) as Hs.
    rewrite Ea in Hs.
    assert (E : a * (1 # 9007199254740992) * O == T * (1 # 9007199254740992)).
    { rewrite <- Ea. ring. }
    now rewrite E in Hs.
  - apply rnd_nonneg. lra.
  - apply Qabs_Qle_condition in Herr as [_ Hb]. lra.
Qed.

(** One side of the size asked: the float of the original side times the
    larger ratio. *)
Lemma side_request (original : Z) (max_ratio : Q) :
  (0 < original < 2 ^ 53)%Z -> 1 # 4 <= inject_Z original * max_ratio ->
  max_ratio <= 18014398509481984 ->
  exists s,
    Binary64.bind (Binary64.of_int original) (fun w => Binary64.mul w max_ratio) =
      Binary64.Finite s /\
    Qabs (s - inject_Z original * max_ratio) <=
      inject_Z original * max_ratio * (1 # 9007199254740992).
Proof.
  intros Ho Hlo Hhi.
  destruct (size_bounds original Ho) as [Ho1 Ho2].
  pose proof (rnd_Z (inject_Z original) original (Qeq_refl _) ltac:(lia)) as Hw.
  set (O := inject_Z original) in *.
  assert (HM0 : 0 <= max_ratio).
  { destruct (Qlt_le_dec max_ratio 0) as [Hneg|]; [|assumption]. exfalso.
    assert (0 <= O * (- max_ratio)) by (apply Qmult_le_0_compat; lra). lra. }
  assert (EP : Binary64.rnd O * max_ratio == O * max_ratio) by now rewrite Hw.
  assert (Hnormal : 2 ^ (-1022) <= Qabs (Binary64.rnd O * max_ratio)).
  { rewrite EP, Qabs_pos by lra. apply Qle_trans with (1 # 4); [|exact Hlo].
    apply Qle_bool_iff. vm_compute. reflexivity. }
  pose proof (rnd_error_normal _ Hnormal) as Herr.
  rewrite (Qabs_pos (Binary64.rnd O * max_ratio)) in Herr by (rewrite EP; lra).
  set (s := Binary64.rnd (Binary64.rnd O * max_ratio)) in *.
  exists s. split.
  - subst s. unfold Binary64.of_int. fold O. rewrite (fl_finite O).
    + cbn [Binary64.bind]. unfold Binary64.mul. apply fl_finite.
      rewrite EP, Qabs_pos by lra.
      apply Qle_trans with (9007199254740992 * 18014398509481984).
      * apply Qmult_le_compat_nonneg; split; lra.
      * apply Qle_bool_iff. vm_compute. reflexivity.
    + rewrite Qabs_pos by lra. apply Qle_trans with 9007199254740992; [exact Ho2|].
      apply Qle_bool_iff. vm_compute. reflexivity.
  - now rewrite EP in Herr.
Qed.

(** X7: on floats, for sizes below [2^53].  [crop] raises
    [ZeroDivisionError] exactly when a side of the original is 0.
    Otherwise the size it asks of [resize] reaches the target in both
    dimensions only up to one part in [2^51]: it can fall just below it.
    It meets the target in one dimension, and has the aspect ratio of the
    original, up to the same part. *)
Theorem X7_resize_request_covers (ow oh width height : Z) :
  (0 < width < 2 ^ 53)%Z -> (0 < height < 2 ^ 53)%Z ->
  (0 <= ow < 2 ^ 53)%Z -> (0 <= oh < 2 ^ 53)%Z ->
  (float_resize_request (ow, oh) width height = Binary64.ZeroDivisionError <->
   ow = 0%Z \/ oh = 0%Z) /\
  ((0 < ow)%Z -> (0 < oh)%Z ->
   exists rw rh,
     float_resize_request (ow, oh) width height = Binary64.Finite (rw, rh) /\
     inject_Z width * (1 - (1 # 2251799813685248)) <= rw /\
     inject_Z height * (1 - (1 # 2251799813685248)) <= rh /\
     (Qabs (rw - inject_Z width) <= inject_Z width * (1 # 2251799813685248) \/
      Qabs (rh - inject_Z height) <= inject_Z height * (1 # 2251799813685248)) /\
     Qabs (rw * inject_Z oh - rh * inject_Z ow) <=
       rw * inject_Z oh * (1 # 2251799813685248)).
Proof.
  intros Hw Hh How Hoh.
  assert (Hpos : (0 < ow)%Z -> (0 < oh)%Z ->
   exists rw rh,
     float_resize_request (ow, oh) width height = Binary64.Finite (rw, rh) /\
     inject_Z width * (1 - (1 # 2251799813685248)) <= rw /\
     inject_Z height * (1 - (1 # 2251799813685248)) <= rh /\
     (Qabs (rw - inject_Z width) <= inject_Z width * (1 # 2251799813685248) \/
      Qabs (rh - inject_Z height) <= inject_Z height * (1 # 2251799813685248)) /\
     Qabs (rw * inject_Z oh - rh * inject_Z ow) <=
       rw * inject_Z oh * (1 # 2251799813685248)).
  { intros How' Hoh'.
    destruct (size_ratio width ow Hw ltac:(lia)) as (wr & Ewr & Hwr & Hwr0 & Hwr1).
    destruct (size_ratio height oh Hh ltac:(lia)) as (hr & Ehr & Hhr & Hhr0 & Hhr1).
    destruct (size_bounds width Hw) as [Hw1 Hw2].
    destruct (size_bounds height Hh) as [Hh1 Hh2].
    destruct (size_bounds ow ltac:(lia)) as [Ha1 Ha2].
    destruct (size_bounds oh ltac:(lia)) as [Hb1 Hb2].
    destruct (max_of_cases wr hr) as (Hcase & HMw & HMh).
    unfold float_resize_request. rewrite Ewr, Ehr. cbn [Binary64.bind].
    set (M := max_of wr hr) in *.
    set (W := inject_Z width) in *. set (H := inject_Z height) in *.
    set (A := inject_Z ow) in *. set (B := inject_Z oh) in *.
    apply Qabs_Qle_condition in Hwr as [Hwr2 Hwr3].
    apply Qabs_Qle_condition in Hhr as [Hhr2 Hhr3].
    assert (HAM : wr * A <= A * M).
    { rewrite (Qmult_comm wr). apply Qmult_le_l; lra. }
    assert (HBM : hr * B <= B * M).
    { rewrite (Qmult_comm hr). apply Qmult_le_l; lra. }
    assert (HM1 : M <= 18014398509481984) by (destruct Hcase as [-> | ->]; lra).
    destruct (side_request ow M ltac:(lia)) as (rw & Erw & Hrw); [fold A; lra|exact HM1|].
    destruct (side_request oh M ltac:(lia)) as (rh & Erh & Hrh); [fold B; lra|exact HM1|].
    fold A in Erw, Hrw. fold B in Erh, Hrh.
    rewrite Erw. cbn [Binary64.bind]. rewrite Erh. cbn [Binary64.bind].
    exists rw, rh. split; [reflexivity|].
    pose proof (Qabs_scale B _ _ _ ltac:(lra) Hrw) as HX.
    pose proof (Qabs_scale A _ _ _ ltac:(lra) Hrh) as HY.
    assert (EX : B * M * A == A * M * B) by ring.
    assert (EX' : B * M * (1 # 9007199254740992) * A ==
                  A * M * (1 # 9007199254740992) * B) by ring.
    rewrite EX, EX' in HY.
    assert (HX0 : 0 <= A * M * B).
    { apply Qmult_le_0_compat; lra. }
    assert (EXu : A * M * (1 # 9007199254740992) * B ==
                  A * M * B * (1 # 9007199254740992)) by ring.
    rewrite EXu in HX, HY.
    apply Qabs_Qle_condition in Hrw as [Hrw1 Hrw2].
    apply Qabs_Qle_condition in Hrh as [Hrh1 Hrh2].
    apply Qabs_Qle_condition in HX as [HX1 HX2].
    apply Qabs_Qle_condition in HY as [HY1 HY2].
    set (AM := A * M) in *. set (BM := B * M) in *.
    set (AMB := A * M * B) in *.
    set (wA := wr * A) in *. set (hB := hr * B) in *.
    set (rwB := rw * B) in *. set (rhA := rh * A) in *.
    split; [lra|]. split; [lra|]. split.
    - destruct Hcase as [Hc | Hc].
      + left. assert (E : AM == wA) by (subst AM wA; rewrite Hc; ring).
        apply Qabs_Qle_condition. split; lra.
      + right. assert (E : BM == hB) by (subst BM hB; rewrite Hc; ring).
        apply Qabs_Qle_condition. split; lra.
    - apply Qabs_Qle_condition. split; lra. }
  split; [|exact Hpos].
  split.
  - intros Hz.
    destruct (Z.eq_dec ow 0%Z) as [->|]; [now left|].
    destruct (Z.eq_dec oh 0%Z) as [->|]; [now right|].
    destruct (Hpos ltac:(lia) ltac:(lia)) as (rw & rh & E & _). congruence.
  - intros [-> | ->].
    + reflexivity.
    + unfold float_resize_request.
      destruct (Z.eq_dec ow 0%Z) as [->|]; [reflexivity|].
      destruct (size_ratio width ow Hw ltac:(lia)) as (wr & Ewr & _).
      rewrite Ewr. reflexivity.
Qed.

Lemma X7_resize_request_covers_witness :
  (float_resize_request (1920, 1080)%Z 1080 1248 = Binary64.ZeroDivisionError <->
   1920%Z = 0%Z \/ 1080%Z = 0%Z) /\
  ((0 < 1920)%Z -> (0 < 1080)%Z ->
   exists rw rh,
     float_resize_request (1920, 1080)%Z 1080 1248 = Binary64.Finite (rw, rh) /\
     inject_Z 1080 * (1 - (1 # 2251799813685248)) <= rw /\
     inject_Z 1248 * (1 - (1 # 2251799813685248)) <= rh /\
     (Qabs (rw - inject_Z 1080) <= inject_Z 1080 * (1 # 2251799813685248) \/
      Qabs (rh - inject_Z 1248) <= inject_Z 1248 * (1 # 2251799813685248)) /\
     Qabs (rw * inject_Z 1080 - rh * inject_Z 1920) <=
       rw * inject_Z 1080 * (1 # 2251799813685248)).
Proof. apply (X7_resize_request_covers 1920 1080 1080 1248); lia. Defined.

(** A clip of 1920 by 1080 cropped to 1080 by 1248: the height asked of
    [resize] is the float just below 1248. *)
Example resize_request_below_target :
  exists rw rh,
    float_resize_request (1920, 1080)%Z 1080 1248 = Binary64.Finite (rw, rh) /\
    rh < 1248 /\ 1248 - rh == 2 ^ (-42).
Proof.
  eexists _, _. split; [vm_compute; reflexivity|].
  split; [|vm_compute]; reflexivity.
Qed.

(** X8: the window [crop] cuts from the resized clip.  It never reaches
    past the resized clip and is never taller (wider) than the target; when
    the resized clip is at least as tall (wide) as the target, the window
    starts at or after 0, has exactly the target height (width), and the
    margins left on its two sides differ by at most one pixel.  Equal
    ratios cut nothing. *)
Theorem X8_crop_window_centred (ow oh nw nh width height : Z) :
  (0 < ow)%Z -> (0 < oh)%Z ->
  ((height * ow < width * oh)%Z ->
   exists y1 y2,
     crop (ow, oh) (nw, nh) width height = Some (CropRows y1 y2) /\
     (y2 <= nh)%Z /\ (y2 - y1 <= height)%Z /\
     ((height <= nh)%Z ->
      (0 <= y1)%Z /\ y2 = (y1 + height)%Z /\ (-1 <= (nh - y2) - y1 <= 1)%Z)) /\
  ((width * oh < height * ow)%Z ->
   exists x1 x2,
     crop (ow, oh) (nw, nh) width height = Some (CropColumns x1 x2 width height) /\
     (x2 <= nw)%Z /\ (x2 - x1 <= width)%Z /\
     ((width <= nw)%Z ->
      (0 <= x1)%Z /\ x2 = (x1 + width)%Z /\ (-1 <= (nw - x2) - x1 <= 1)%Z)) /\
  ((width * oh = height * ow)%Z ->
   crop (ow, oh) (nw, nh) width height = Some Uncropped).
Proof.
  intros How Hoh. unfold crop. cbn [fst snd].
  rewrite (ratio_defined width ow How), (ratio_defined height oh Hoh).
  pose proof (ratio_le width ow height oh How Hoh) as Hwh.
  pose proof (ratio_le height oh width ow Hoh How) as Hhw.
  destruct (Qle_bool (inject_Z width / inject_Z ow) (inject_Z height / inject_Z oh)) eqn:E1;
    destruct (Qle_bool (inject_Z height / inject_Z oh) (inject_Z width / inject_Z ow)) eqn:E2;
    cbn [negb].
  - (* equal ratios *)
    assert (width * oh <= height * ow)%Z by now apply Hwh.
    assert (height * ow <= width * oh)%Z by now apply Hhw.
    repeat split; intros; lia.
  - (* the height ratio is larger: cut columns *)
    assert (width * oh <= height * ow)%Z by now apply Hwh.
    assert (~ (height * ow <= width * oh)%Z) by (rewrite <- Hhw; congruence).
    split; [intros; lia|]. split; [|intros; lia]. intros _.
    pose proof (round_half_of_Z (nw - width)) as Hr.
    set (x1 := Trim.round_half_even (inject_Z (nw - width) / 2)) in *.
    eexists _, _. split; [reflexivity|]. repeat split; lia.
  - (* the width ratio is larger: cut rows *)
    assert (~ (width * oh <= height * ow)%Z) by (rewrite <- Hwh; congruence).
    split; [|split; intros; lia]. intros _.
    pose proof (round_half_of_Z (nh - height)) as Hr.
    set (y1 := Trim.round_half_even (inject_Z (nh - height) / 2)) in *.
    eexists _, _. split; [reflexivity|]. repeat split; lia.
  - (* neither ratio is at most the other: impossible *)
    exfalso.
    assert (~ (width * oh <= height * ow)%Z) by (rewrite <- Hwh; congruence).
    assert (~ (height * ow <= width * oh)%Z) by (rewrite <- Hhw; congruence).
    lia.
Qed.

Lemma X8_crop_window_centred_witness :
  ((1920 * 1920 < 1080 * 1080)%Z ->
   exists y1 y2,
     crop (1920, 1080)%Z (3413, 1920)%Z 1080 1920 = Some (CropRows y1 y2) /\
     (y2 <= 1920)%Z /\ (y2 - y1 <= 1920)%Z /\
     ((1920 <= 1920)%Z ->
      (0 <= y1)%Z /\ y2 = (y1 + 1920)%Z /\ (-1 <= (1920 - y2) - y1 <= 1)%Z)) /\
  ((1080 * 1080 < 1920 * 1920)%Z ->
   exists x1 x2,
     crop (1920, 1080)%Z (3413, 1920)%Z 1080 1920 =
       Some (CropColumns x1 x2 1080 1920) /\
     (x2 <= 3413)%Z /\ (x2 - x1 <= 1080)%Z /\
     ((1080 <= 3413)%Z ->
      (0 <= x1)%Z /\ x2 = (x1 + 1080)%Z /\ (-1 <= (3413 - x2) - x1 <= 1)%Z)) /\
  ((1080 * 1080 = 1920 * 1920)%Z ->
   crop (1920, 1080)%Z (3413, 1920)%Z 1080 1920 = Some Uncropped).
Proof. apply (X8_crop_window_centred 1920 1080 3413 1920 1080 1920); lia. Defined.

Example crop_landscape_to_portrait :
  crop (1920, 1080)%Z (3413, 1920)%Z 1080 1920 =
  Some (CropColumns 1166 2246 1080 1920).
Proof. vm_compute. reflexivity. Qed.

Example crop_to_wider_box :
  crop (1080, 1920)%Z (1080, 1920)%Z 1080 768 = Some (CropRows 576 1344).
Proof. vm_compute. reflexivity. Qed.

Example crop_of_empty_clip : crop (0, 0)%Z (0, 0)%Z 1080 1920 = None.
Proof. reflexivity. Qed.

End ClipFacts.

(** ** Model download and the whole of [start_process] *)

Section BootstrapFacts.
Import Text Bootstrap.

Lemma lstrip_all_space s : forallb isspace s = true -> lstrip s = [].
Proof.
  induction s as [|c s IH]; simpl; [reflexivity|].
  intros H. apply andb_prop in H as [Hc Hs]. rewrite Hc. auto.
Qed.

Lemma strip_empty_iff s : strip s = [] <-> forallb isspace s = true.
Proof.
  split.
  - intros H.
    destruct (lstrip_decompose s) as (sp & Hsp & Hs).
    destruct (rstrip_decompose (lstrip s)) as (sp' & Hsp' & Hs').
    unfold strip in H. rewrite H in Hs'. simpl in Hs'.
    rewrite Hs, Hs', forallb_app, Hsp, Hsp'. reflexivity.
  - intros H. unfold strip. rewrite (lstrip_all_space s H). reflexivity.
Qed.

Lemma is_falsy_check_command r :
  is_falsy (check_command r) = true <-> looks_missing r.
Proof.
  destruct r as [returncode stdout|message]; simpl.
  - destruct (returncode =? 0)%Z eqn:E.
    + apply Z.eqb_eq in E. rewrite <- strip_empty_iff.
      destruct (strip stdout); simpl; split; auto; try discriminate.
      intros [?|?]; [contradiction|discriminate].
    + apply Z.eqb_neq in E. simpl. tauto.
  - destruct message; simpl; split; auto; discriminate.
Qed.

(** X9: [clone_respository] raises "Git is not installed" exactly when
    [git --version] ran and ended with a non-zero code or printed only
    white space (or raised with an empty message), and likewise for Git
    LFS once the Git check has passed.  A command that cannot be started,
    so that [subprocess.run] raises with a message, passes its check: the
    function goes on to [git clone]. *)
Theorem X9_clone_checks (run : list string -> run_result) (repo_url : string) :
  (clone_respository run repo_url = GitNotInstalled <->
   looks_missing (run git_version)) /\
  (clone_respository run repo_url = GitLfsNotInstalled <->
   ~ looks_missing (run git_version) /\ looks_missing (run git_lfs_version)) /\
  (forall m1 m2, m1 <> [] -> m2 <> [] ->
     run git_version = RunRaised m1 -> run git_lfs_version = RunRaised m2 ->
     clone_respository run repo_url =
       match run (git_clone repo_url) with
       | Completed returncode _ =>
           if (returncode =? 0)%Z then Cloned else CalledProcessError
       | RunRaised message => CloneRaised message
       end).
Proof.
  unfold clone_respository.
  pose proof (is_falsy_check_command (run git_version)) as Hg.
  pose proof (is_falsy_check_command (run git_lfs_version)) as Hl.
  assert (Hother : forall r : run_result,
            match r with
            | Completed returncode _ =>
                if (returncode =? 0)%Z then Cloned else CalledProcessError
            | RunRaised message => CloneRaised message
            end <> GitNotInstalled /\
            match r with
            | Completed returncode _ =>
                if (returncode =? 0)%Z then Cloned else CalledProcessError
            | RunRaised message => CloneRaised message
            end <> GitLfsNotInstalled).
  { intros [rc out|msg]; [destruct (rc =? 0)%Z|]; split; discriminate. }
  destruct (Hother (run (git_clone repo_url))) as [Ho1 Ho2].
  split; [|split].
  - destruct (is_falsy (check_command (run git_version))).
    + split; [intros _; now apply Hg|reflexivity].
    + destruct (is_falsy (check_command (run git_lfs_version))).
      * split; [discriminate|]. intros H. apply Hg in H. discriminate.
      * split; [intros H; contradiction|]. intros H. apply Hg in H. discriminate.
  - destruct (is_falsy (check_command (run git_version))).
    + split; [discriminate|]. intros [Hn _]. exfalso. apply Hn. now apply Hg.
    + destruct (is_falsy (check_command (run git_lfs_version))).
      * split; [|reflexivity]. intros _. split; [|now apply Hl].
        intros H. apply Hg in H. discriminate.
      * split; [intros H; contradiction|]. intros [_ H]. apply Hl in H. discriminate.
  - intros m1 m2 H1 H2 E1 E2. rewrite E1, E2. simpl.
    destruct m1; [congruence|]. destruct m2; [congruence|]. reflexivity.
Qed.

Example git_not_found_passes_the_check :
  clone_respository
    (fun _ => RunRaised (lit "[Errno 2] No such file or directory: 'git'"))
    "https://huggingface.co/openai/whisper-base" =
  CloneRaised (lit "[Errno 2] No such file or directory: 'git'").
Proof. reflexivity. Qed.

Example git_exit_code_1 :
  clone_respository (fun _ => Completed 1 (lit "")) "url" = GitNotInstalled.
Proof. reflexivity. Qed.

End BootstrapFacts.

Section WorkerFacts.
Import Retry Worker.

Lemma retry_loop_plain writer positions :
  Forall plain (fst (retry_loop writer positions)).
Proof.
  induction positions as [|pos rest IH]; simpl; [repeat constructor|].
  destruct (writer pos); try (repeat constructor).
  destruct (retry_loop writer rest) as [trace how]. simpl in *.
  repeat (constructor; [exact I|]). exact IH.
Qed.

Lemma flags_plain trace : Forall plain trace -> flags trace = [].
Proof.
  induction 1 as [|e trace He _ IH]; [reflexivity|].
  unfold flags in *. destruct e; simpl in *; try contradiction; exact IH.
Qed.

Lemma closes_plain trace : Forall plain trace -> count is_close trace = 0.
Proof.
  induction 1 as [|e trace He _ IH]; [reflexivity|].
  unfold count in *. destruct e; simpl in *; try contradiction; exact IH.
Qed.

Lemma flags_status b trace : flags (SetStatus b :: trace) = b :: flags trace.
Proof. reflexivity. Qed.

Lemma flags_app t1 t2 : flags (t1 ++ t2) = flags t1 ++ flags t2.
Proof. apply omap_app. Qed.

(** X10: a worker writes [False] to its entry first; it writes [True]
    only as its very last action, after closing both clips, and only when
    it returns; when an exception ends it, whether while loading,
    processing or writing, it leaves the entry at [False] and closes
    neither clip. *)
Theorem X10_start_process_flag_and_clips
    (loaded processed : bool) (writer : nat -> write_result) :
  let trace := fst (start_process loaded processed writer) in
  let how := snd (start_process loaded processed writer) in
  head trace = Some (SetStatus false) /\
  (how = Returned ->
     flags trace = [false; true] /\
     (exists before, trace = before ++ closing /\ count is_close before = 0) /\
     count is_close trace = 2) /\
  (how = Died -> flags trace = [false] /\ count is_close trace = 0) /\
  (how = Returned <->
     loaded = true /\ processed = true /\ snd (save_output writer) = Returned).
Proof.
  intros trace how. subst trace how. unfold start_process.
  destruct loaded, processed; cbn [andb fst snd head];
    try (split; [reflexivity|]; split; [discriminate|];
         split; [intros _; split; reflexivity|];
         split; [discriminate|intros (? & ? & ?); discriminate]).
  split; [reflexivity|]. unfold save_output.
  pose proof (retry_loop_plain writer (seq 0 5)) as Hplain.
  destruct (retry_loop writer (seq 0 5)) as [t ex]. cbn [fst] in Hplain.
  pose proof (flags_plain t Hplain) as Hf. pose proof (closes_plain t Hplain) as Hc.
  assert (Hret : flags (SetStatus false :: t ++ closing) = [false; true] /\
                 (exists before, SetStatus false :: t ++ closing = before ++ closing /\
                                 count is_close before = 0) /\
                 count is_close (SetStatus false :: t ++ closing) = 2).
  { split; [|split].
    - rewrite flags_status, flags_app, Hf. reflexivity.
    - exists (SetStatus false :: t). split; [reflexivity|exact Hc].
    - change (count is_close (SetStatus false :: t ++ closing))
        with (count is_close (t ++ closing)).
      rewrite count_app, Hc. reflexivity. }
  assert (Hdied : flags (SetStatus false :: t) = [false] /\
                  count is_close (SetStatus false :: t) = 0).
  { split; [now rewrite flags_status, Hf|exact Hc]. }
  destruct ex; cbn [fst snd]; repeat split; auto; try discriminate;
    try (intros; exact (proj1 Hret)); try apply Hret; try apply Hdied.
  now intros (_ & _ & H).
Qed.

Example start_process_unreadable_input :
  start_process false true (fun _ => WriteOk) = ([SetStatus false], Died).
Proof. reflexivity. Qed.

End WorkerFacts.

(** ** The scheduler: joining and the counter *)

Section SchedulerMore.
Import Scheduler Join.

Lemma finished_example_reachable : reachable 1 ["a.mp4"%string] finished_example.
Proof.
  unfold reachable, init, finished_example.
  eapply rtc_l. { left. apply step_while_enter. now left. }
  eapply rtc_l. { left. apply step_start with (pid := 0%Z); [lia|apply lookup_empty]. }
  eapply rtc_l. { left. apply step_store. }
  eapply rtc_l. { left. apply step_incr. }
  eapply rtc_l. { right. apply worker_mark with (pid := 0%Z). apply lookup_insert_eq. }
  eapply rtc_l. { right. apply worker_finish with (pid := 0%Z). apply lookup_insert_eq. }
  eapply rtc_l. { left. apply step_items. }
  rewrite !insert_insert_eq, !insert_empty, map_to_list_singleton. apply rtc_refl.
Qed.



Lemma counter_after_loop (C : nat) (names : list string) s :
  reachable C names s -> at_line s = Done -> num_active_processes s = 0%Z.
Proof.
  unfold reachable. intros Hreach. revert s Hreach.
  apply (rtc_ind_r (fun s => at_line s = Done -> num_active_processes s = 0%Z));
    [discriminate|].
  intros y z Hy [Hstep|Hstep] IH Hat.
  - pose proof (inv_reachable _ _ _ Hy) as [_ _ _ _ _ _ Hl].
    unfold line_inv in Hl.
    destruct Hstep; simpl in *; try discriminate.
    destruct Hl as [_ Hn]. now rewrite map_size_empty in Hn.
  - destruct Hstep; simpl in *; auto.
Qed.



End SchedulerMore.

(** ** Subtitle export: what a stamp denotes, and appending segments *)

Section SrtMoreFacts.
Import Text Srt.
Local Open Scope Q_scope.

Lemma Qfloor_unique x (k : Z) :
  inject_Z k <= x -> x < inject_Z k + 1 -> Qfloor x = k.
Proof.
  intros Hlo Hhi.
  assert (H : (k <= Qfloor x < k + 1)%Z).
  { apply Qfloor_between; [exact Hlo|]. rewrite inject_Z_plus. exact Hhi. }
  lia.
Qed.

Lemma Qfloor_minus_Z x (k : Z) : Qfloor (x - inject_Z k) = (Qfloor x - k)%Z.
Proof.
  pose proof (Qfloor_le x) as Hlo. pose proof (Qlt_floor x) as Hhi.
  rewrite inject_Z_plus in Hhi. change (inject_Z 1) with 1 in Hhi.
  apply Qfloor_unique; unfold Z.sub; rewrite inject_Z_plus, inject_Z_opp; lra.
Qed.

Lemma Qfloor_div_Z x (n : Z) :
  (0 < n)%Z -> Qfloor (x / inject_Z n) = (Qfloor x / n)%Z.
Proof.
  intros Hn.
  pose proof (Qfloor_le x) as Hlo. pose proof (Qlt_floor x) as Hhi.
  rewrite inject_Z_plus in Hhi. change (inject_Z 1) with 1 in Hhi.
  pose proof (Z.div_mod (Qfloor x) n ltac:(lia)) as Hdm.
  pose proof (Z.mod_pos_bound (Qfloor x) n Hn) as Hb.
  set (F := Qfloor x) in *. set (q := (F / n)%Z) in *.
  assert (H1 : (q * n <= F)%Z) by lia.
  assert (H2 : (F + 1 <= (q + 1) * n)%Z) by lia.
  rewrite Zle_Qle in H1, H2.
  rewrite inject_Z_mult in H1. rewrite inject_Z_plus, inject_Z_mult, inject_Z_plus in H2.
  change (inject_Z 1) with 1 in H2.
  assert (HnQ : 0 < inject_Z n) by (rewrite Zlt_Qlt in Hn; exact Hn).
  apply Qfloor_unique.
  - apply Qle_shift_div_l; [exact HnQ|]. lra.
  - apply Qlt_shift_div_r; [exact HnQ|]. lra.
Qed.

(** [x % n], floored, for a whole number [n > 0]. *)
Lemma Qfloor_fmod_Z x (n : Z) :
  (0 < n)%Z -> Qfloor (fmod x (inject_Z n)) = (Qfloor x mod n)%Z.
Proof.
  intros Hn. unfold fmod, floordiv. rewrite (Qfloor_div_Z x n Hn).
  rewrite (Qfloor_comp _ (x - inject_Z (n * (Qfloor x / n))))
    by (rewrite inject_Z_mult; reflexivity).
  rewrite Qfloor_minus_Z. rewrite Z.mod_eq by lia. reflexivity.
Qed.

Lemma fmod_nonneg x (n : Z) : (0 < n)%Z -> 0 <= fmod x (inject_Z n).
Proof.
  intros Hn. apply fmod_bounds. rewrite Zlt_Qlt in Hn. exact Hn.
Qed.


Example fields_of_3661_5 :
  (hours_of 3661.5, minutes_of 3661.5, secs_of 3661.5, milliseconds_of 3661.5) =
  (1, 1, 1, 500)%Z.
Proof. vm_compute. reflexivity. Qed.

Lemma enumerate_from_app (a b : list segment) : forall k,
  enumerate_from k (a ++ b) =
  enumerate_from k a ++ enumerate_from (k + length a) b.
Proof.
  induction a as [|x a IH]; intros k; cbn [enumerate_from app length].
  - now rewrite Nat.add_0_r.
  - rewrite IH. do 3 f_equal. lia.
Qed.

(** X14: exporting more segments leaves the blocks already written as
    they are and goes on numbering after them; no segment gives the empty
    export. *)
Theorem X14_format_srt_append (a b : list segment) :
  format_srt (a ++ b) =
    format_srt a ++
    concat (map (fun p => cue_block p.1 p.2) (enumerate_from (length a) b)) /\
  format_srt [] = [] /\
  (forall seg, format_srt (a ++ [seg]) = format_srt a ++ cue_block (length a) seg).
Proof.
  assert (Happ : forall b',
            format_srt (a ++ b') =
            format_srt a ++
            concat (map (fun p => cue_block p.1 p.2) (enumerate_from (length a) b'))).
  { intros b'. unfold format_srt.
    rewrite !format_srt_fold, enumerate_from_app, map_app, concat_app. reflexivity. }
  split; [apply Happ|]. split; [reflexivity|].
  intros seg. rewrite Happ. cbn [enumerate_from map concat fst snd].
  now rewrite app_nil_r.
Qed.

End SrtMoreFacts.

(** ** The name of the subtitle file *)

Section SrtPathFacts.
Import Text SrtPath.

Lemma basename_join (dir name : str) :
  slash_free name = true -> basename (dir ++ "/"%char :: name) = name.
Proof.
  unfold slash_free. intros Hfree. apply negb_true_iff in Hfree.
  induction dir as [|c dir IH]; cbn [app basename].
  - now rewrite Hfree.
  - assert (E : existsb is_slash (dir ++ "/"%char :: name) = true).
    { rewrite existsb_app. cbn. apply orb_true_r. }
    now rewrite E.
Qed.

(** Where [old] does not start, [replace] copies. *)
Lemma replace_from_absent (old new : str) : forall n s t,
  n = length s -> absent_before n (s ++ t) old = true ->
  replace_from 0 (s ++ t) old new = s ++ replace_from 0 t old new.
Proof.
  induction n as [|n IH]; intros [|c s] t Hn Habs; try discriminate.
  - reflexivity.
  - cbn [absent_before app] in Habs. apply andb_true_iff in Habs as [H0 Hrest].
    apply negb_true_iff in H0. cbn [app replace_from].
    cbn [app] in H0. rewrite H0. f_equal. apply IH; [|exact Hrest].
    cbn [length] in Hn. congruence.
Qed.

(** X15: for a video [dir/stem.mp4] whose stem has no ["/"] and in whose
    name [".mp4"] occurs only at the end, the subtitle file is named
    [stem.srt]: the directory is dropped and the extension exchanged. *)
Theorem X15_srt_file_name_of_mp4 (dir stem : str) :
  slash_free stem = true ->
  absent_before (length stem) (stem ++ lit ".mp4") (lit ".mp4") = true ->
  srt_file_name (dir ++ "/"%char :: stem ++ lit ".mp4") = stem ++ lit ".srt".
Proof.
  intros Hfree Habs. unfold srt_file_name, replace.
  rewrite basename_join.
  - now rewrite (replace_from_absent _ _ (length stem)).
  - unfold slash_free in *. rewrite existsb_app.
    apply negb_true_iff in Hfree. now rewrite Hfree.
Qed.

Lemma X15_srt_file_name_of_mp4_witness :
  srt_file_name (lit "input_videos" ++ "/"%char :: lit "talk" ++ lit ".mp4") =
  lit "talk" ++ lit ".srt".
Proof.
  apply (X15_srt_file_name_of_mp4 (lit "input_videos") (lit "talk")); reflexivity.
Defined.

(** [replace] exchanges every [".mp4"], not only the extension. *)
Example srt_file_name_inner_mp4 :
  srt_file_name (lit "input_videos/a.mp4.mp4") = lit "a.srt.srt".
Proof. reflexivity. Qed.

Example srt_file_name_other_extension :
  srt_file_name (lit "input_videos/a.mov") = lit "a.mov".
Proof. reflexivity. Qed.

End SrtPathFacts.

(** ** The first crop of a background clip *)

Section GetClipFacts.
Import Crop GetClip.
Local Open Scope Q_scope.

(** [round(width * 0.9)] is within half a pixel of nine tenths. *)
Lemma narrowed_width_near (width : Z) :
  (9 * width - 5 <= 10 * narrowed_width width <= 9 * width + 5)%Z.
Proof.
  unfold narrowed_width.
  pose proof (round_half_even_near (inject_Z width * 0.9)) as Hn.
  apply Qabs_Qle_condition in Hn as [Ha Hb].
  set (r := Trim.round_half_even (inject_Z width * 0.9)) in *.
  assert (H1 : inject_Z (9 * width - 5) <= inject_Z (10 * r)).
  { rewrite inject_Z_mult. unfold Z.sub. rewrite inject_Z_plus, inject_Z_mult.
    change (inject_Z 9) with 9. change (inject_Z 10) with 10.
    change (inject_Z (- (5))) with (- (5)). lra. }
  assert (H2 : inject_Z (10 * r) <= inject_Z (9 * width + 5)).
  { rewrite inject_Z_plus, !inject_Z_mult.
    change (inject_Z 9) with 9. change (inject_Z 10) with 10.
    change (inject_Z 5) with 5. lra. }
  rewrite <- Zle_Qle in H1, H2. lia.
Qed.

(** X16: the first crop of [get_clip] on a clip more than 5 pixels wide
    and of positive height.  The size asked of [resize] is the clip's own;
    the crop then cuts columns: the window has the narrowed width, which is
    within half a pixel of nine tenths of the width, lies inside the clip,
    and leaves margins that differ by at most one pixel; the height is
    kept. *)
Theorem X16_get_clip_first_crop (width height : Z) :
  (5 < width)%Z -> (0 < height)%Z ->
  (exists rw rh,
     resize_request (width, height) (narrowed_width width) height = Some (rw, rh) /\
     rw == inject_Z width /\ rh == inject_Z height) /\
  (exists x1 x2,
     first_crop width height =
       Some (CropColumns x1 x2 (narrowed_width width) height) /\
     (9 * width - 5 <= 10 * narrowed_width width <= 9 * width + 5)%Z /\
     (0 <= x1)%Z /\ x2 = (x1 + narrowed_width width)%Z /\ (x2 <= width)%Z /\
     (-1 <= (width - x2) - x1 <= 1)%Z).
Proof.
  intros Hw Hh. pose proof (narrowed_width_near width) as Hnear.
  set (nw := narrowed_width width) in *.
  assert (How : (0 < width)%Z) by lia.
  assert (Hlt : (nw * height < height * width)%Z) by nia.
  pose proof (ratio_le nw width height height How Hh) as Hwh.
  pose proof (ratio_le height height nw width Hh How) as Hhw.
  assert (E1 : Qle_bool (inject_Z nw / inject_Z width)
                 (inject_Z height / inject_Z height) = true)
    by (apply Hwh; lia).
  assert (E2 : Qle_bool (inject_Z height / inject_Z height)
                 (inject_Z nw / inject_Z width) = false).
  { apply not_true_is_false. intros E. apply Hhw in E. lia. }
  split.
  - unfold resize_request. cbn [fst snd].
    rewrite (ratio_defined nw width How), (ratio_defined height height Hh).
    unfold max_of. rewrite E1. eexists _, _. split; [reflexivity|].
    rewrite Zlt_Qlt in Hh. change (inject_Z 0) with 0 in Hh.
    split; field; lra.
  - unfold first_crop, crop. fold nw. cbn [fst snd].
    rewrite (ratio_defined nw width How), (ratio_defined height height Hh).
    rewrite E1, E2. cbn [negb].
    pose proof (round_half_of_Z (width - nw)) as Hr.
    set (x1 := Trim.round_half_even (inject_Z (width - nw) / 2)) in *.
    eexists _, _. split; [reflexivity|]. repeat split; lia.
Qed.

Lemma X16_get_clip_first_crop_witness :
  (exists rw rh,
     resize_request (1920, 1080)%Z (narrowed_width 1920) 1080 = Some (rw, rh) /\
     rw == inject_Z 1920 /\ rh == inject_Z 1080) /\
  (exists x1 x2,
     first_crop 1920 1080 =
       Some (CropColumns x1 x2 (narrowed_width 1920) 1080) /\
     (9 * 1920 - 5 <= 10 * narrowed_width 1920 <= 9 * 1920 + 5)%Z /\
     (0 <= x1)%Z /\ x2 = (x1 + narrowed_width 1920)%Z /\ (x2 <= 1920)%Z /\
     (-1 <= (1920 - x2) - x1 <= 1)%Z).
Proof. apply (X16_get_clip_first_crop 1920 1080); lia. Defined.

Example first_crop_full_hd :
  first_crop 1920 1080 = Some (CropColumns 96 1824 1728 1080).
Proof. reflexivity. Qed.

(** A clip of at most 4 pixels is not narrowed at all. *)
Example first_crop_tiny : first_crop 4 4 = Some Uncropped.
Proof. reflexivity. Qed.

End GetClipFacts.
